(** * Auto-fit text layout of the image-placeholder service

    A shallow embedding of [src/index.js] and the properties of its line
    wrapper, font-size solver, layout optimizer and word renderer.  The
    file holds two variants of the service: the [/image/:text] route
    (variant B, lines 194-475) is embedded in full; of the [/review] route
    (variant A, lines 1-193) the line-splitting loop and [getColor] are the
    same code, [drawWord] differs only in the drawing call, and the linear
    font-size loop is embedded as [reviewFontSize].

    Conventions of the embedding:
    - a JavaScript string is the list of its code units ([str]); lengths and
      indices are integers ([Z]) because the source compares them with
      negative sentinels ([lastIndexOf] returning [-1], [pos <= 0]);
    - pixel metrics are rationals ([Q]); rounding of doubles and NaN are
      not represented; font sizes and wrap widths are exact integers, which
      the doubles of the source are as long as they stay within
      [-2^53 .. 2^53];
    - every [while]/[do-while] loop is a function with an iteration budget
      returning [None] when the budget is exhausted, so that termination is
      a theorem (some budget yields [Some]) and divergence is one too (no
      budget does). *)

From Equations.Prop Require Import Equations Logic.
From Stdlib Require Import List ZArith QArith Bool Ascii String Lia.
Import ListNotations.

Local Open Scope Z_scope.

(** ** JavaScript strings *)

Module JS.

Definition str := list ascii.

(** String literals of the examples are written with [s "..."]. *)
Definition s (lit : string) : str := list_ascii_of_string lit.

Definition space : ascii := " "%char.
Definition newline : ascii := "010"%char.
Definition bang : ascii := "!"%char.
Definition comma : ascii := ","%char.

(** [line.length] *)
Definition len (t : str) : Z := Z.of_nat (List.length t).

(** Index arguments of [substring] and [indexOf] are clamped to
    [0 .. length]. *)
Definition clamp (t : str) (k : Z) : nat := Z.to_nat (Z.min (Z.max k 0) (len t)).

(** [t.substring(a, b)]: both ends clamped, swapped when [a > b]. *)
Definition substring (t : str) (a b : Z) : str :=
  let a' := clamp t a in
  let b' := clamp t b in
  firstn (Nat.max a' b' - Nat.min a' b') (skipn (Nat.min a' b') t).

(** [t.substring(a)] *)
Definition substringFrom (t : str) (a : Z) : str := skipn (clamp t a) t.

Fixpoint indexFrom (c : ascii) (t : str) (k : Z) : Z :=
  match t with
  | [] => -1
  | x :: t' => if Ascii.eqb x c then k else indexFrom c t' (k + 1)
  end.

(** [t.indexOf(c, from)] for a one-character needle. *)
Definition indexOf (t : str) (c : ascii) (from : Z) : Z :=
  let k := clamp t from in indexFrom c (skipn k t) (Z.of_nat k).

Fixpoint lastIndexFrom (c : ascii) (t : str) (k found : Z) : Z :=
  match t with
  | [] => found
  | x :: t' => lastIndexFrom c t' (k + 1) (if Ascii.eqb x c then k else found)
  end.

(** [t.lastIndexOf(c)] for a one-character needle. *)
Definition lastIndexOf (t : str) (c : ascii) : Z := lastIndexFrom c t 0 (-1).

(** [t.split(c)] for a one-character separator: never the empty array. *)
Fixpoint split (t : str) (c : ascii) : list str :=
  match t with
  | [] => [[]]
  | x :: t' =>
      if Ascii.eqb x c then [] :: split t' c
      else match split t' c with
           | [] => [[x]]
           | l :: ls => (x :: l) :: ls
           end
  end.

(** [ls.join(c)] *)
Fixpoint join (ls : list str) (c : ascii) : str :=
  match ls with
  | [] => []
  | [l] => l
  | l :: ls' => l ++ c :: join ls' c
  end.

(** [t.endsWith(c)] for a one-character suffix. *)
Definition endsWith (t : str) (c : ascii) : bool :=
  match rev t with
  | x :: _ => Ascii.eqb x c
  | [] => false
  end.

End JS.

Import JS.

(** ** Line wrapper ([splitLines], index.js 335-357; same loop in the
    [/review] route, 116-131) *)

(** Lines 341-342: the break position of one iteration. *)
Definition breakPos (line : str) (maxLineLength : Z) : Z :=
  let pos := lastIndexOf (substring line 0 maxLineLength) space in
  if pos <=? 0 then maxLineLength else pos.

(** Lines 346-349: index at which the remainder of the segment starts. *)
Definition nextStart (line : str) (maxLineLength pos : Z) : Z :=
  let i := indexOf line space pos + 1 in
  if (i <? pos) || (i >? pos + maxLineLength) then pos else i.

(** The [forEach] callback (lines 340-353): the [while] loop on one
    newline-delimited segment, pushing onto the shared [lines] array. *)
Fixpoint splitLine (fuel : nat) (line : str) (maxLineLength : Z)
    (lines : list str) : option (list str) :=
  match fuel with
  | O => None
  | S fuel' =>
      if len line >? maxLineLength then
        let pos := breakPos line maxLineLength in
        let i := nextStart line maxLineLength pos in
        splitLine fuel' (substringFrom line i) maxLineLength
          (lines ++ [substring line 0 pos])
      else Some (lines ++ [line])
  end.

Definition splitLines (fuel : nat) (text : str) (maxLineLength : Z)
    : option (list str) :=
  fold_left
    (fun acc line =>
       match acc with
       | Some lines => splitLine fuel line maxLineLength lines
       | None => None
       end)
    (split text newline) (Some []).

(** ** Measurements and configuration *)

(** The fields of the [TextMetrics] object that the source reads. *)
Record TextMetrics := {
  width : Q;
  actualBoundingBoxAscent : Q;
  actualBoundingBoxDescent : Q
}.

(** [a > b] on pixel values. *)
Definition Qgtb (a b : Q) : bool := negb (Qle_bool a b).

Fixpoint str_eqb (a b : str) : bool :=
  match a, b with
  | [], [] => true
  | x :: a', y :: b' => Ascii.eqb x y && str_eqb a' b'
  | _, _ => false
  end.

(** One call of the drawing primitive of [drawWord] (variant B:
    [drawPngReplaceEmoji]; variant A calls [fillText] with the same text,
    x and y), with the context state it is issued under. *)
Record DrawOp := {
  op_text : str;
  op_x : Q;
  op_y : Q;
  op_fillStyle : string;
  op_font : Z;
  op_emoji : Z
}.

(** The part of [CanvasRenderingContext2D] the routes use: [font] holds the
    size [n] of [getFont(n)], i.e. [bold ${n}px Outfit]. *)
Record Context2d := {
  font : Z;
  fillStyle : string;
  drawn : list DrawOp
}.

(** The search state of the [/image] route (lines 385-390). *)
Record Dichotomy := {
  d_min : Z;
  d_max : Z;
  d_maxFontSize : Z;
  d_lines : list str
}.

Inductive Response :=
| Png (canvas : list DrawOp)
| InternalServerError.

(** [ratios] (lines 222-227). *)
Definition ratios (n : Z) : option Q :=
  if n =? 2 then Some (1275 # 1000)%Q
  else if n =? 3 then Some (1167 # 1000)%Q
  else if n =? 4 then Some (112 # 100)%Q
  else if n =? 5 then Some (1095 # 1000)%Q
  else None.

(** [getLongestLineLength] (line 368). *)
Definition getLongestLineLength (lines : list str) : Z :=
  fold_left (fun max line => if len line >? max then len line else max) lines 0.

(** ** Configuration defaults (lines 18-19 and 211-212)

    [parseInt(process.env.X) || d]: [parsed] is the result of [parseInt],
    [None] standing for [NaN] (variable unset or not a number).  The default
    replaces every falsy value, that is [NaN] and 0. *)
Definition orDefault (parsed : option Z) (default : Z) : Z :=
  match parsed with
  | Some v => if v =? 0 then default else v
  | None => default
  end.

(** Lines 18 and 211 (both variants), and line 212 (variant B). *)
Definition configCanvasWidth (parsed : option Z) : Z := orDefault parsed 1275.
Definition configMaxFontSize (parsed : option Z) : Z := orDefault parsed 200.

(** Variant A, line 19. *)
Definition configMaxLineLength (parsed : option Z) : Z := orDefault parsed 100.

Section Engine.

(** Configuration read from the environment (lines 211-215), after the
    defaults were applied: [maxFontSize] is [configMaxFontSize] of what was
    parsed, and so on. *)
Variable canvasWidth : Q.
Variable maxFontSize : Z.
Variable baseFontColor specialWordFontColor : string.
Variable specialWordList : list str.

(** The measurement provider: [measureText size text] is
    [context.measureText(text)] under [context.font = getFont(size)]. *)
Variable measureText : Z -> str -> TextMetrics.

(** [n ** 1.5] of [computeLineHeight], a double that is irrational for most
    [n]; its rational stand-in is left to the caller. *)
Variable pow15 : Z -> Q.

(** [String.prototype.toLowerCase] and [levenshtein.get(a, b,
    { useCollator: true })] of the fast-levenshtein package. *)
Variable toLowerCase : str -> str.
Variable levenshtein_get : str -> str -> Z.

Definition ratio : Q := (1275 # 362)%Q.
Definition canvasHeight : Q := (canvasWidth / ratio)%Q.

(** The overflow test of lines 323 and 146. *)
Definition overflows (m : TextMetrics) : bool :=
  Qgtb (width m) canvasWidth
  || Qgtb (actualBoundingBoxDescent m + actualBoundingBoxAscent m)%Q canvasHeight.

(** *** Font-size solver ([computeFontSize], lines 294-333) *)

(** The [do ... while (max - min > 1)] loop, lines 312-330.  The midpoint
    is the exact floor of the half sum, which [Math.floor((min + max) / 2)]
    is for bounds within [-2^53 .. 2^53]; beyond, the doubles of the source
    round the sum. *)
Fixpoint fontDichotomy (fuel : nat) (text : str) (min max : Z) : option Z :=
  match fuel with
  | O => None
  | S fuel' =>
      let newFontSize := (min + max) / 2 in
      let '(min', max') :=
        if overflows (measureText newFontSize text)
        then (min, newFontSize) else (newFontSize, max) in
      if max' - min' >? 1 then fontDichotomy fuel' text min' max' else Some min'
  end.

Definition computeFontSize (fuel : nat) (text : str) : option Z :=
  fontDichotomy fuel text 0 maxFontSize.

(** *** The font size of the [/review] route (variant A, lines 136-150)

    The sibling of [computeFontSize]: start at [maxFontSize] and step down
    by one while the text overflows. *)
Fixpoint shrinkFont (fuel : nat) (text : str) (fontSize : Z) : option Z :=
  match fuel with
  | O => None
  | S fuel' =>
      if overflows (measureText fontSize text)
      then shrinkFont fuel' text (fontSize - 1)
      else Some fontSize
  end.

Definition reviewFontSize (fuel : nat) (text : str) : option Z :=
  shrinkFont fuel text maxFontSize.

(** [maxLineLength] of variant A (line 19). *)
Variable maxLineLength : Z.

(** The layout of the [/review] route for the text it picked (lines
    112-156): wrap at the configured width, join with line breaks, shrink
    the font, and split the joined text again into the lines to draw. *)
Definition reviewLayout (fuel : nat) (text : str) : option (list str * Z) :=
  match splitLines fuel text maxLineLength with
  | None => None
  | Some splittedLines =>
      let joined := join splittedLines newline in
      match reviewFontSize fuel joined with
      | None => None
      | Some fontSize => Some (split joined newline, fontSize)
      end
  end.

(** *** Line height ([computeLineHeight], lines 359-366) *)

Definition computeLineHeight (lines : list str) (textDetails : TextMetrics) : Q :=
  let n := Z.of_nat (List.length lines) in
  let multiplier :=
    match ratios n with
    | Some r => r
    | None => ((7 # 10) / pow15 n + 1)%Q
    end in
  ((actualBoundingBoxDescent textDetails + actualBoundingBoxAscent textDetails)
     / inject_Z n * multiplier)%Q.

(** *** Layout optimizer (the [/image/:text] route, lines 382-434) *)

(** One pass of the body of the [do-while], lines 395-427. *)
Definition wrapStep (d : Dichotomy) (newMaxLineLength : Z)
    (splittedLines : list str) (newFontSize : Z) : Dichotomy :=
  if newFontSize >? d_maxFontSize d then
    let textDetails := measureText newFontSize (join splittedLines newline) in
    let lineHeight := computeLineHeight splittedLines textDetails in
    if Qgtb (canvasHeight - actualBoundingBoxDescent textDetails
             + actualBoundingBoxAscent textDetails)%Q (lineHeight * 2)%Q
    then {| d_min := d_min d; d_max := newMaxLineLength;
            d_maxFontSize := newFontSize; d_lines := splittedLines |}
    else {| d_min := newMaxLineLength; d_max := d_max d;
            d_maxFontSize := newFontSize; d_lines := splittedLines |}
  else {| d_min := d_min d; d_max := newMaxLineLength;
          d_maxFontSize := d_maxFontSize d; d_lines := d_lines d |}.

(** The [do-while] of lines 393-428; [fuel] bounds its iterations and, at
    each of them, those of the two inner loops. *)
Fixpoint wrapDichotomy (fuel : nat) (text : str) (d : Dichotomy)
    : option Dichotomy :=
  match fuel with
  | O => None
  | S fuel' =>
      let newMaxLineLength := (d_min d + d_max d) / 2 in
      match splitLines fuel text newMaxLineLength with
      | None => None
      | Some splittedLines =>
          match computeFontSize fuel (join splittedLines newline) with
          | None => None
          | Some newFontSize =>
              let d' := wrapStep d newMaxLineLength splittedLines newFontSize in
              if d_max d' - d_min d' >? 1
              then wrapDichotomy fuel' text d' else Some d'
          end
      end
  end.

(** Lines 382-428.  On line 388 [computeFontSize] receives the array
    [lines]; [measureText] converts its argument to a string, which for an
    array is [lines.join(',')]. *)
Definition imageLayout (fuel : nat) (text : str) : option Dichotomy :=
  let lines := split text newline in
  match computeFontSize fuel (join lines comma) with
  | None => None
  | Some seed =>
      wrapDichotomy fuel text
        {| d_min := 0; d_max := getLongestLineLength lines;
           d_maxFontSize := seed; d_lines := lines |}
  end.

(** *** Word renderer ([getColor], lines 241-255; [drawWord], 265-286) *)

Definition isSpecial (word specialWord : str) : bool :=
  if len specialWord >? 3
  then levenshtein_get word specialWord <=? 2
  else str_eqb (toLowerCase word) (toLowerCase specialWord).

(** [None] is a [null] word. *)
Definition getColor (word : option str) : string :=
  match word with
  | None => baseFontColor
  | Some [] => baseFontColor
  | Some w =>
      if existsb (isSpecial w) specialWordList
      then specialWordFontColor else baseFontColor
  end.

(** The test of line 266. *)
Definition splitsBang (word : str) : bool :=
  (len word >? 1) && endsWith word bang.

(** The drawing call of lines 276-283, issued after [fillStyle] was set on
    line 274. *)
Definition plainOp (context : Context2d) (word : str) (x y : Q) (fontSize : Z)
    : DrawOp :=
  {| op_text := word; op_x := x; op_y := y;
     op_fillStyle := getColor (Some word);
     op_font := font context; op_emoji := fontSize |}.

(** Lines 273-285: the non-recursive tail of [drawWord]. *)
Definition drawPlain (context : Context2d) (word : str) (x y : Q)
    (fontSize : Z) : Q * Context2d :=
  (width (measureText (font context) (word ++ [space])),
   {| font := font context;
      fillStyle := getColor (Some word);
      drawn := drawn context ++ [plainOp context word x y fontSize] |}).

(** [drawWord] recurses on a word one character shorter, then on ["!"]. *)
Equations? drawWord (context : Context2d) (word : str) (x y : Q) (fontSize : Z)
    : Q * Context2d by wf (List.length word) lt :=
  drawWord context word x y fontSize with inspect (splitsBang word) => {
    | exist _ true Hsplit =>
        let r1 := drawWord context (substring word 0 (len word - 1)) x y fontSize in
        let r2 := drawWord (snd r1) [bang] (x + fst r1)%Q y fontSize in
        ((fst r1 + fst r2)%Q, snd r2);
    | exist _ false Hsplit => drawPlain context word x y fontSize }.
Proof.
  all: unfold splitsBang in Hsplit;
    apply andb_prop in Hsplit; destruct Hsplit as [Hlen _];
    apply Z.gtb_lt in Hlen; unfold len in Hlen.
  - unfold substring, clamp, len. rewrite length_firstn, length_skipn. lia.
  - simpl. lia.
Qed.

(** *** Render phase of the [/image/:text] route (lines 430-464) *)

(** Lines 449-456: one line, centred as a whole, drawn word by word. *)
Definition drawLine (context : Context2d) (line : str) (y : Q) (fontSize : Z)
    : Context2d :=
  let x := ((canvasWidth - width (measureText (font context) line)) / 2)%Q in
  snd (fold_left
         (fun st word =>
            let r := drawWord (snd st) word (fst st) y fontSize in
            ((fst st + fst r)%Q, snd r))
         (split line space) (x, context)).

Definition render (d : Dichotomy) : Context2d :=
  let context :=
    {| font := d_maxFontSize d; fillStyle := "#000000"; drawn := [] |} in
  let lines := d_lines d in
  let textDetails := measureText (font context) (join lines newline) in
  let lineHeight := computeLineHeight lines textDetails in
  let y := ((canvasHeight - actualBoundingBoxDescent textDetails
             + actualBoundingBoxAscent textDetails) / 2)%Q in
  snd (fold_left
         (fun st line =>
            ((fst st + lineHeight)%Q,
             drawLine (snd st) line (fst st) (d_maxFontSize d)))
         lines (y, context)).

(** The route: the [catch] branch (status 500) is taken when a statement of
    the [try] block throws; none of the modelled statements does, and the
    [try] block holds no [throw] of its own. *)
Definition imageRoute (fuel : nat) (text : str) : option Response :=
  match imageLayout fuel text with
  | None => None
  | Some d => Some (Png (drawn (render d)))
  end.

End Engine.

(** ** Concrete collaborators used by the examples *)

(** ASCII lower-casing. *)
Definition lowerChar (c : ascii) : ascii :=
  let n := N_of_ascii c in
  if ((65 <=? n) && (n <=? 90))%N then ascii_of_N (n + 32) else c.

Definition asciiLowerCase (t : str) : str := map lowerChar t.

(** Modelled from the spec: the fast-levenshtein package is a dependency
    whose source is not part of the repository; [levenshtein.get] with
    [useCollator] is taken to be the edit distance (insertions, deletions,
    substitutions) under a locale-normalized comparison of characters, here
    equality up to ASCII case. *)
Definition collatorEq (a b : ascii) : bool := Ascii.eqb (lowerChar a) (lowerChar b).

Fixpoint editDistance (a : str) : str -> nat :=
  fix inner (b : str) : nat :=
    match a, b with
    | [], _ => List.length b
    | _, [] => List.length a
    | x :: a', y :: b' =>
        if collatorEq x y then editDistance a' b'
        else S (Nat.min (editDistance a' b) (Nat.min (inner b') (editDistance a' b')))
    end.

Definition levenshtein (a b : str) : Z := Z.of_nat (editDistance a b).

(** A monospace font: every character is [size] pixels wide and every line
    [size] pixels high above the baseline.  Deterministic, and monotonic in
    the font size. *)
Definition monoMeasure (size : Z) (text : str) : TextMetrics :=
  let lines := split text newline in
  {| width := inject_Z (size * getLongestLineLength lines);
     actualBoundingBoxAscent := inject_Z (size * Z.of_nat (List.length lines));
     actualBoundingBoxDescent := 0 |}.

(** A rational stand-in for [n ** 1.5]. *)
Definition pow15_int (n : Z) : Q := inject_Z (n * Z.sqrt n).

(** A provider under which every text is 2000 pixels wide at every size. *)
Definition wideMeasure (size : Z) (text : str) : TextMetrics :=
  {| width := 2000; actualBoundingBoxAscent := 0; actualBoundingBoxDescent := 0 |}.

(** A provider under which every text fits at every size. *)
Definition zeroMeasure (size : Z) (text : str) : TextMetrics :=
  {| width := 0; actualBoundingBoxAscent := 0; actualBoundingBoxDescent := 0 |}.

(** ** Well-behaved segments

    The inputs on which the wrapper is expected to lose nothing: no two
    adjacent spaces, no leading space, and every maximal run of non-space
    characters (a piece of [split] on spaces) shorter than the bound. *)

Definition startsWithSpace (t : str) : bool :=
  match t with
  | x :: _ => Ascii.eqb x space
  | [] => false
  end.

Fixpoint noAdjacentSpaces (t : str) : bool :=
  match t with
  | [] => true
  | x :: t' => negb (Ascii.eqb x space && startsWithSpace t') && noAdjacentSpaces t'
  end.

Definition runsShorter (L : Z) (t : str) : bool :=
  forallb (fun w => len w <? L) (split t space).

Definition wellBehaved (L : Z) (t : str) : bool :=
  noAdjacentSpaces t && negb (startsWithSpace t) && runsShorter L t.

(** ** Special-word matching as the specification words it

    A special word of at most three characters matches by case-insensitive
    equality, a longer one when the collation-aware edit distance to the
    word is at most two. *)
Definition matchesSpecial (toLowerCase : str -> str)
    (levenshtein_get : str -> str -> Z) (word specialWord : str) : Prop :=
  (len specialWord <= 3 /\ toLowerCase word = toLowerCase specialWord)
  \/ (3 < len specialWord /\ levenshtein_get word specialWord <= 2).

(** A fresh context under [getFont(size)]. *)
Definition freshContext (size : Z) : Context2d :=
  {| font := size; fillStyle := "#000000"; drawn := [] |}.

(** * Properties *)

(** ** JavaScript string primitives *)

Section StringFacts.

Implicit Types (t a b : str) (c : ascii).

Lemma len_nonneg t : 0 <= len t.
Proof. unfold len. lia. Qed.

Lemma len_app a b : len (a ++ b) = len a + len b.
Proof. unfold len. rewrite length_app. lia. Qed.

Lemma clamp_in_range t k : 0 <= k <= len t -> clamp t k = Z.to_nat k.
Proof. intros H. unfold clamp. f_equal. lia. Qed.

Lemma clamp_le t k : (clamp t k <= List.length t)%nat.
Proof. unfold clamp, len. lia. Qed.

Lemma substring_prefix t p :
  0 <= p <= len t -> substring t 0 p = firstn (Z.to_nat p) t.
Proof.
  intros H. unfold substring.
  rewrite (clamp_in_range t 0), (clamp_in_range t p) by (pose proof (len_nonneg t); lia).
  change (Z.to_nat 0) with 0%nat.
  rewrite Nat.max_0_l, Nat.min_0_l, Nat.sub_0_r. reflexivity.
Qed.

Lemma len_substring_prefix t p : 0 <= p <= len t -> len (substring t 0 p) = p.
Proof.
  intros H. rewrite substring_prefix by assumption.
  unfold len in *. rewrite length_firstn. lia.
Qed.

Lemma substringFrom_suffix t i :
  0 <= i <= len t -> substringFrom t i = skipn (Z.to_nat i) t.
Proof. intros H. unfold substringFrom. now rewrite clamp_in_range. Qed.

Lemma len_substringFrom t i : 0 <= i <= len t -> len (substringFrom t i) = len t - i.
Proof.
  intros H. rewrite substringFrom_suffix by assumption.
  unfold len in *. rewrite length_skipn. lia.
Qed.

Lemma In_take (n : nat) t c : In c (firstn n t) -> In c t.
Proof.
  intros H. rewrite <- (firstn_skipn n t). apply in_or_app. now left.
Qed.

Lemma In_drop (n : nat) t c : In c (skipn n t) -> In c t.
Proof.
  intros H. rewrite <- (firstn_skipn n t). apply in_or_app. now right.
Qed.

(** Every character of a substring is a character of the string. *)
Lemma In_substring t x y c : In c (substring t x y) -> In c t.
Proof.
  unfold substring. intros H.
  apply (In_drop (Nat.min (clamp t x) (clamp t y))).
  eapply In_take. exact H.
Qed.

Lemma In_substringFrom t x c : In c (substringFrom t x) -> In c t.
Proof. unfold substringFrom. apply In_drop. Qed.

(** [lastIndexOf]: either the needle is absent and the sentinel comes back,
    or the string splits at the reported index around the last needle. *)
Lemma lastIndexFrom_spec c t : forall k found,
  (lastIndexFrom c t k found = found /\ ~ In c t)
  \/ exists a b, t = a ++ c :: b /\ ~ In c b
                 /\ lastIndexFrom c t k found = k + len a.
Proof.
  induction t as [|x t IH]; intros k found; simpl.
  - left. split; [reflexivity | intros []].
  - destruct (IH (k + 1) (if Ascii.eqb x c then k else found))
      as [[Hr Hn] | (a & b & -> & Hb & Hr)].
    + destruct (Ascii.eqb_spec x c) as [-> | Hx].
      * right. exists [], t. rewrite Hr. cbn. repeat split; auto. lia.
      * left. rewrite Hr. split; [reflexivity | intros [E | E]; auto].
    + right. exists (x :: a), b. rewrite Hr. repeat split; auto.
      unfold len. cbn [List.length]. lia.
Qed.

Lemma lastIndexOf_spec t c :
  (lastIndexOf t c = -1 /\ ~ In c t)
  \/ exists a b, t = a ++ c :: b /\ ~ In c b /\ lastIndexOf t c = len a.
Proof.
  unfold lastIndexOf.
  destruct (lastIndexFrom_spec c t 0 (-1)) as [H | (a & b & H1 & H2 & H3)].
  - now left.
  - right. exists a, b. repeat split; auto.
Qed.

Lemma lastIndexOf_bounds t c : -1 <= lastIndexOf t c < Z.max 0 (len t).
Proof.
  pose proof (len_nonneg t).
  destruct (lastIndexOf_spec t c) as [[-> _] | (a & b & -> & _ & ->)].
  - lia.
  - rewrite len_app. unfold len. cbn [List.length]. lia.
Qed.

(** [indexOf]: [-1], or an index at or after the start of the search. *)
Lemma indexFrom_bounds c t : forall k,
  indexFrom c t k = -1 \/ k <= indexFrom c t k < k + len t.
Proof.
  induction t as [|x t IH]; intros k; simpl.
  - now left.
  - unfold len. cbn [List.length].
    destruct (Ascii.eqb x c).
    + right. lia.
    + destruct (IH (k + 1)) as [H | H]; [now left | right].
      unfold len in H. lia.
Qed.

Lemma indexOf_bounds t c from :
  indexOf t c from = -1 \/ Z.max 0 (Z.min from (len t)) <= indexOf t c from < len t.
Proof.
  unfold indexOf.
  destruct (indexFrom_bounds c (skipn (clamp t from) t) (Z.of_nat (clamp t from)))
    as [H | H]; [now left | right].
  unfold len in *. rewrite length_skipn in H. unfold clamp, len in *. lia.
Qed.

Lemma indexOf_here a b c : indexOf (a ++ c :: b) c (len a) = len a.
Proof.
  unfold indexOf. rewrite clamp_in_range.
  - unfold len. rewrite Nat2Z.id, skipn_app, Nat.sub_diag, skipn_all. simpl.
    now rewrite Ascii.eqb_refl.
  - rewrite len_app. pose proof (len_nonneg a). pose proof (len_nonneg (c :: b)). lia.
Qed.

(** [split] and [join]. *)
Lemma split_nonempty t c : split t c <> [].
Proof.
  destruct t as [|x t]; simpl; [discriminate |].
  destruct (Ascii.eqb x c); [discriminate |].
  destruct (split t c); discriminate.
Qed.

Lemma split_app_sep a b c : split (a ++ c :: b) c = split a c ++ split b c.
Proof.
  induction a as [|x a IH]; simpl.
  - now rewrite Ascii.eqb_refl.
  - destruct (Ascii.eqb x c); [now rewrite IH |].
    rewrite IH. destruct (split a c) eqn:E; [now apply split_nonempty in E |].
    reflexivity.
Qed.

Lemma split_no_sep t c : ~ In c t -> split t c = [t].
Proof.
  induction t as [|x t IH]; intros H; simpl; [reflexivity |].
  destruct (Ascii.eqb_spec x c) as [-> | Hx]; [exfalso; apply H; now left |].
  rewrite IH; [reflexivity | intros Hin; apply H; now right].
Qed.

Lemma split_pieces_no_sep t c : Forall (fun l => ~ In c l) (split t c).
Proof.
  induction t as [|x t IH]; simpl.
  - constructor; [intros [] | constructor].
  - destruct (Ascii.eqb_spec x c) as [-> | Hx].
    + constructor; [intros [] | assumption].
    + destruct (split t c) as [|l ls]; [repeat constructor; intros [E | []]; auto |].
      inversion IH as [|? ? Hl Hls]; subst. constructor; [| assumption].
      intros [E | E]; auto.
Qed.

(** The first piece of [split]: the whole string, or what precedes the
    first separator. *)
Lemma split_first t c :
  exists w ws, split t c = w :: ws /\
    ((ws = [] /\ t = w) \/ exists t', t = w ++ c :: t').
Proof.
  induction t as [|x t (w & ws & E & H)]; simpl.
  - exists [], []. split; [reflexivity | left; auto].
  - destruct (Ascii.eqb_spec x c) as [-> | Hx].
    + exists [], (split t c). split; [reflexivity | right]. now exists t.
    + rewrite E. exists (x :: w), ws. split; [reflexivity |].
      destruct H as [[-> ->] | (t' & ->)]; [left; auto | right; now exists t'].
Qed.

Lemma join_cons l ls c : ls <> [] -> join (l :: ls) c = l ++ c :: join ls c.
Proof. destruct ls; [congruence | reflexivity]. Qed.

(** Splitting what was joined gives the pieces back, provided no piece
    holds the separator. *)
Lemma split_join ls c :
  ls <> [] -> Forall (fun l => ~ In c l) ls -> split (join ls c) c = ls.
Proof.
  induction ls as [|l ls IH]; intros Hne Hall; [congruence |].
  inversion Hall as [|? ? Hl Hls]; subst.
  destruct ls as [|l' ls].
  - simpl. now apply split_no_sep.
  - rewrite join_cons by discriminate.
    rewrite split_app_sep, split_no_sep by assumption.
    rewrite IH by (auto; discriminate). reflexivity.
Qed.

End StringFacts.

(** ** Line wrapper *)

Section WrapLoop.

Variable L : Z.

Let pushLines (fuel : nat) :=
  fun (acc : option (list str)) (line : str) =>
    match acc with
    | Some lines => splitLine fuel line L lines
    | None => None
    end.

(** The loop only appends to the shared array. *)
Lemma splitLine_acc fuel : forall line acc,
  splitLine fuel line L acc = option_map (app acc) (splitLine fuel line L []).
Proof.
  induction fuel as [|fuel IH]; intros line acc; simpl; [reflexivity |].
  destruct (len line >? L).
  - rewrite (IH _ (acc ++ _)), (IH _ [_]).
    destruct (splitLine fuel _ L []); simpl; [now rewrite <- app_assoc | reflexivity].
  - reflexivity.
Qed.

(** A larger budget does not change a result. *)
Lemma splitLine_fuel_mono fuel : forall line acc ls fuel',
  splitLine fuel line L acc = Some ls -> (fuel <= fuel')%nat ->
  splitLine fuel' line L acc = Some ls.
Proof.
  induction fuel as [|fuel IH]; intros line acc ls fuel' H Hle; [discriminate |].
  destruct fuel' as [|fuel']; [lia |]. simpl in *.
  destruct (len line >? L); [| assumption].
  apply IH; [assumption | lia].
Qed.

Lemma splitLine_nonempty fuel : forall line ls,
  splitLine fuel line L [] = Some ls -> ls <> [].
Proof.
  destruct fuel as [|fuel]; intros line ls; simpl; [discriminate |].
  destruct (len line >? L).
  - rewrite splitLine_acc. destruct (splitLine fuel _ L []); simpl; [| discriminate].
    intros [= <-]. discriminate.
  - intros [= <-]. discriminate.
Qed.

(** A property [P] of the emitted lines, established through an invariant
    [I] of the remainder of the segment. *)
Lemma splitLine_Forall (P I : str -> Prop) :
  (forall line, I line -> L < len line ->
     P (substring line 0 (breakPos line L))
     /\ I (substringFrom line (nextStart line L (breakPos line L)))) ->
  (forall line, I line -> len line <= L -> P line) ->
  forall fuel line ls,
    I line -> splitLine fuel line L [] = Some ls -> Forall P ls.
Proof.
  intros Hstep Hlast. induction fuel as [|fuel IH]; intros line ls HI; simpl;
    [discriminate |].
  destruct (Z.gtb_spec (len line) L) as [Hgt | Hle].
  - destruct (Hstep line HI Hgt) as [HP HI'].
    rewrite splitLine_acc.
    destruct (splitLine fuel _ L []) as [g|] eqn:E; simpl; [| discriminate].
    intros [= <-]. constructor; [exact HP |]. eapply IH; eauto.
  - intros [= <-]. constructor; [now apply Hlast | constructor].
Qed.

Lemma pushLines_None fuel segs : fold_left (pushLines fuel) segs None = None.
Proof. induction segs; simpl; auto. Qed.

(** [splitLines] is the concatenation of what each segment emits. *)
Lemma pushLines_groups fuel : forall segs acc ls,
  fold_left (pushLines fuel) segs (Some acc) = Some ls <->
  exists groups,
    Forall2 (fun seg g => splitLine fuel seg L [] = Some g) segs groups
    /\ ls = acc ++ List.concat groups.
Proof.
  induction segs as [|seg segs IH]; intros acc ls; simpl.
  - split.
    + intros [= <-]. exists []. split; [constructor | now rewrite app_nil_r].
    + intros (groups & HF & ->). inversion HF; subst. simpl. now rewrite app_nil_r.
  - rewrite splitLine_acc. split.
    + destruct (splitLine fuel seg L []) as [g|] eqn:E; simpl;
        [| now rewrite pushLines_None].
      intros H. apply IH in H. destruct H as (groups & HF & ->).
      exists (g :: groups). split; [now constructor |].
      simpl. now rewrite app_assoc.
    + intros (groups & HF & ->). inversion HF as [|? g ? gs Hg HF']; subst.
      rewrite Hg. simpl. apply IH. exists gs. split; [assumption |].
      simpl. now rewrite app_assoc.
Qed.

Lemma splitLines_groups fuel text ls :
  splitLines fuel text L = Some ls <->
  exists groups,
    Forall2 (fun seg g => splitLine fuel seg L [] = Some g)
            (split text newline) groups
    /\ ls = List.concat groups.
Proof. unfold splitLines. apply (pushLines_groups fuel _ [] ls). Qed.

Lemma splitLines_nonempty fuel text ls :
  splitLines fuel text L = Some ls -> ls <> [].
Proof.
  intros H. apply splitLines_groups in H. destruct H as (groups & HF & ->).
  pose proof (split_nonempty text newline) as Hne.
  inversion HF as [| seg g segs gs Hg HF' E1 E2]; subst; [congruence |].
  apply splitLine_nonempty in Hg. simpl. destruct g; [congruence | discriminate].
Qed.

(** A line that is short enough is pushed unchanged. *)
Lemma splitLine_short fuel line acc :
  len line <= L -> splitLine (S fuel) line L acc = Some (acc ++ [line]).
Proof.
  intros H. simpl. destruct (Z.gtb_spec (len line) L); [lia | reflexivity].
Qed.

Lemma pushLines_short fuel : forall segs acc,
  Forall (fun l => len l <= L) segs ->
  fold_left (pushLines (S fuel)) segs (Some acc) = Some (acc ++ segs).
Proof.
  induction segs as [|seg segs IH]; intros acc H; simpl.
  - now rewrite app_nil_r.
  - inversion H as [|? ? Hs Hr]; subst.
    destruct (Z.gtb_spec (len seg) L); [lia |].
    rewrite IH by assumption. now rewrite <- app_assoc.
Qed.

Hypothesis HL : 1 <= L.

Lemma breakPos_bounds line : L < len line -> 1 <= breakPos line L <= L.
Proof.
  intros Hlen. unfold breakPos.
  pose proof (lastIndexOf_bounds (substring line 0 L) space) as Hb.
  rewrite len_substring_prefix in Hb by lia.
  destruct (Z.leb_spec (lastIndexOf (substring line 0 L) space) 0); lia.
Qed.

Lemma nextStart_bounds line pos :
  L < len line -> 1 <= pos <= L -> pos <= nextStart line L pos <= len line.
Proof.
  intros Hlen Hpos. unfold nextStart.
  pose proof (indexOf_bounds line space pos) as Hb.
  destruct (Z.ltb_spec (indexOf line space pos + 1) pos);
    destruct (Z.gtb_spec (indexOf line space pos + 1) (pos + L)); simpl; lia.
Qed.

(** Each iteration shortens the segment, so the loop ends. *)
Lemma splitLine_terminates fuel : forall line acc,
  (List.length line < fuel)%nat -> exists ls, splitLine fuel line L acc = Some ls.
Proof.
  induction fuel as [|fuel IH]; intros line acc Hf; [lia |]. simpl.
  destruct (Z.gtb_spec (len line) L) as [Hgt | Hle]; [| eauto].
  apply IH.
  pose proof (breakPos_bounds line Hgt) as Hp.
  pose proof (nextStart_bounds line _ Hgt Hp) as Hi.
  pose proof (len_substringFrom line (nextStart line L (breakPos line L))) as Hl.
  unfold len in *. lia.
Qed.

Lemma split_piece_length t c :
  Forall (fun l => (List.length l <= List.length t)%nat) (split t c).
Proof.
  induction t as [|x t IH]; simpl.
  - repeat constructor.
  - destruct (Ascii.eqb x c).
    + constructor; [simpl; lia |].
      eapply Forall_impl; [| exact IH]. simpl. intros; lia.
    + destruct (split t c) as [|l ls]; [constructor; [simpl; lia | constructor] |].
      inversion IH; subst. constructor; [simpl; lia |].
      eapply Forall_impl; [| eassumption]. simpl. intros; lia.
Qed.

Lemma splitLines_terminates fuel text :
  (List.length text < fuel)%nat -> exists ls, splitLines fuel text L = Some ls.
Proof.
  intros Hf.
  assert (Hg : exists groups,
             Forall2 (fun seg g => splitLine fuel seg L [] = Some g)
                     (split text newline) groups).
  { pose proof (split_piece_length text newline) as Hlen.
    induction Hlen as [|seg segs Hseg _ (groups & IH)].
    - exists []. constructor.
    - destruct (splitLine_terminates fuel seg []) as [g Hg]; [lia |].
      exists (g :: groups). now constructor. }
  destruct Hg as (groups & Hg). exists (List.concat groups).
  apply splitLines_groups. now exists groups.
Qed.

End WrapLoop.

(** ** Properties of the emitted lines *)

Lemma splitLines_Forall (P I : str -> Prop) (L : Z) :
  (forall line, I line -> L < len line ->
     P (substring line 0 (breakPos line L))
     /\ I (substringFrom line (nextStart line L (breakPos line L)))) ->
  (forall line, I line -> len line <= L -> P line) ->
  forall fuel text ls,
    Forall I (split text newline) ->
    splitLines fuel text L = Some ls -> Forall P ls.
Proof.
  intros Hstep Hlast fuel text ls HI H.
  apply splitLines_groups in H. destruct H as (groups & HF & ->).
  apply Forall_concat.
  induction HF as [|seg g segs gs Hg HF IH]; [constructor |].
  inversion HI; subst. constructor; [| now apply IH].
  eapply splitLine_Forall; eauto.
Qed.

Lemma splitLines_bounded (L : Z) fuel text ls :
  1 <= L -> splitLines fuel text L = Some ls -> Forall (fun l => len l <= L) ls.
Proof.
  intros HL. apply (splitLines_Forall (fun l => len l <= L) (fun _ => True)).
  - intros line _ Hlen. split; [| exact I].
    pose proof (breakPos_bounds L HL line Hlen).
    rewrite len_substring_prefix; lia.
  - auto.
  - apply Forall_forall. auto.
Qed.

Lemma splitLines_no_newline (L : Z) fuel text ls :
  splitLines fuel text L = Some ls -> Forall (fun l => ~ In newline l) ls.
Proof.
  apply (splitLines_Forall (fun l => ~ In newline l) (fun l => ~ In newline l)).
  - intros line Hn _. split; intros Hin; apply Hn.
    + eapply In_substring; eauto.
    + eapply In_substringFrom; eauto.
  - auto.
  - apply split_pieces_no_sep.
Qed.

(** C4: for every text and every bound [L >= 1] the wrapper returns, every
    line it returns has at most [L] characters, and the line emitted by a
    forced hard break (no space at an index of 1 or more among the first
    [L] characters of a segment longer than [L], as when the segment starts
    with a run of [L] non-space characters) consists of exactly the first
    [L] characters. *)
Theorem splitLines_line_length (text : str) (L : Z) (fuel : nat) :
  1 <= L -> (List.length text < fuel)%nat ->
  (exists ls, splitLines fuel text L = Some ls
              /\ Forall (fun l => len l <= L) ls)
  /\ (forall line, ~ In space (substring line 0 L) ->
        lastIndexOf (substring line 0 L) space <= 0)
  /\ (forall line n ls,
        L < len line -> lastIndexOf (substring line 0 L) space <= 0 ->
        splitLine n line L [] = Some ls ->
        exists rest, ls = substring line 0 L :: rest
                     /\ len (substring line 0 L) = L).
Proof.
  intros HL Hf. split; [| split].
  - destruct (splitLines_terminates L HL fuel text Hf) as [ls Hls].
    exists ls. split; [assumption | eapply splitLines_bounded; eauto].
  - intros line Hno.
    destruct (lastIndexOf_spec (substring line 0 L) space)
      as [[-> _] | (a & b & E & _)]; [lia |].
    exfalso. apply Hno. rewrite E. apply in_or_app. right. now left.
  - intros line n ls Hlen Hpos H.
    destruct n as [|n]; [discriminate |]. simpl in H.
    destruct (Z.gtb_spec (len line) L); [| lia].
    unfold breakPos in H at 2.
    destruct (Z.leb_spec (lastIndexOf (substring line 0 L) space) 0); [| lia].
    rewrite splitLine_acc in H.
    destruct (splitLine n _ L []) as [rest|]; [| discriminate].
    injection H as <-. exists rest. split; [reflexivity |].
    apply len_substring_prefix. lia.
Qed.

Lemma splitLines_line_length_witness :
  (exists ls, splitLines 12 (s "abcdefgh ij") 5 = Some ls
              /\ Forall (fun l => len l <= 5) ls)
  /\ (exists rest, [s "abcde"; s "ij"] = substring (s "abcdefgh ij") 0 5 :: rest
                   /\ len (substring (s "abcdefgh ij") 0 5) = 5).
Proof.
  destruct (splitLines_line_length (s "abcdefgh ij") 5 12) as (H1 & H2 & H3);
    [lia | simpl; lia |].
  split; [exact H1 |].
  apply (H3 (s "abcdefgh ij") 12%nat); [now vm_compute | | reflexivity].
  apply H2. vm_compute. intros [H | [H | [H | [H | [H | []]]]]]; discriminate H.
Defined.

(** C9: wrapping is idempotent for every valid bound [L >= 1]: the wrapper
    returns on the text, and wrapping the newline-join of the returned
    lines with the same bound returns the same lines. *)
Theorem splitLines_idempotent (text : str) (L : Z) (fuel : nat) :
  1 <= L -> (List.length text < fuel)%nat ->
  exists ls, splitLines fuel text L = Some ls
             /\ splitLines fuel (join ls newline) L = Some ls.
Proof.
  intros HL Hf.
  destruct (splitLines_terminates L HL fuel text Hf) as [ls Hls].
  exists ls. split; [assumption |].
  unfold splitLines at 1.
  rewrite split_join.
  - destruct fuel as [|fuel]; [lia |].
    apply (pushLines_short L fuel ls []).
    eapply splitLines_bounded; eauto.
  - eapply splitLines_nonempty; eauto.
  - eapply splitLines_no_newline; eauto.
Qed.

Lemma splitLines_idempotent_witness :
  exists ls,
    splitLines 41 (s "This place was amazing! Highly recommend") 20 = Some ls
    /\ splitLines 41 (join ls newline) 20 = Some ls.
Proof.
  apply (splitLines_idempotent (s "This place was amazing! Highly recommend") 20 41);
    [lia | simpl; lia].
Defined.

(** ** Content preservation on well-behaved segments *)

Section Rejoin.

Variable L : Z.
Hypothesis HL : 1 <= L.

Lemma noAdjacentSpaces_suffix a b :
  noAdjacentSpaces (a ++ b) = true -> noAdjacentSpaces b = true.
Proof.
  induction a as [|x a IH]; simpl; [auto |].
  intros H. apply andb_prop in H. now apply IH.
Qed.

Lemma noAdjacentSpaces_after_space a b :
  noAdjacentSpaces (a ++ space :: b) = true -> startsWithSpace b = false.
Proof.
  intros H. apply noAdjacentSpaces_suffix in H. simpl in H.
  apply andb_prop in H. destruct H as [H _].
  destruct (startsWithSpace b); [discriminate | reflexivity].
Qed.

Lemma runsShorter_Forall t :
  runsShorter L t = true <-> Forall (fun w => len w < L) (split t space).
Proof.
  unfold runsShorter. rewrite forallb_forall, Forall_forall.
  split; intros H w Hw; specialize (H w Hw); lia.
Qed.

Lemma take_app_exact (a b : str) : firstn (List.length a) (a ++ b) = a.
Proof.
  rewrite firstn_app, Nat.sub_diag, firstn_all. simpl. apply app_nil_r.
Qed.

Lemma drop_app_past (a b : str) c : skipn (S (List.length a)) (a ++ c :: b) = b.
Proof.
  rewrite skipn_app, skipn_all2 by lia.
  replace (S (List.length a) - List.length a)%nat with 1%nat by lia.
  reflexivity.
Qed.

(** A segment of more than [L] characters whose runs are shorter than [L]
    has a space among its first [L] characters. *)
Lemma space_in_window line :
  runsShorter L line = true -> L < len line ->
  In space (firstn (Z.to_nat L) line).
Proof.
  intros Hr Hlen. apply runsShorter_Forall in Hr.
  destruct (split_first line space) as (w & ws & E & H).
  rewrite E in Hr. inversion Hr as [|? ? Hw _]; subst.
  destruct H as [[_ ->] | (t' & ->)]; [lia |].
  rewrite firstn_app. apply in_or_app. right.
  unfold len in Hw.
  destruct (Z.to_nat L - List.length w)%nat as [|k] eqn:Ek; [lia |].
  simpl. now left.
Qed.

(** On a well-behaved segment the loop breaks at a space, keeps what
    precedes it and continues right after it. *)
Lemma break_at_space line :
  wellBehaved L line = true -> L < len line ->
  exists a rest,
    line = a ++ space :: rest
    /\ substring line 0 (breakPos line L) = a
    /\ substringFrom line (nextStart line L (breakPos line L)) = rest
    /\ wellBehaved L rest = true.
Proof.
  intros Hwb Hlen. unfold wellBehaved in Hwb.
  apply andb_prop in Hwb. destruct Hwb as [Hwb Hruns].
  apply andb_prop in Hwb. destruct Hwb as [Hadj Hstart].
  apply negb_true_iff in Hstart.
  pose proof (space_in_window line Hruns Hlen) as Hin.
  pose proof (len_nonneg line) as Hnn.
  assert (Hsub : substring line 0 L = firstn (Z.to_nat L) line)
    by (apply substring_prefix; lia).
  destruct (lastIndexOf_spec (firstn (Z.to_nat L) line) space)
    as [[_ Hno] | (a & b & Ea & Hb & Hidx)]; [contradiction |].
  assert (Eline : line = a ++ space :: (b ++ skipn (Z.to_nat L) line)).
  { rewrite <- (firstn_skipn (Z.to_nat L) line) at 1. rewrite Ea.
    rewrite <- app_assoc. reflexivity. }
  set (rest := b ++ skipn (Z.to_nat L) line) in *. clearbody rest.
  assert (Ha : 1 <= len a).
  { destruct a as [|x a]; [| unfold len; simpl; lia].
    rewrite Eline in Hstart. simpl in Hstart. discriminate. }
  assert (HaL : len a < L).
  { assert (len (firstn (Z.to_nat L) line) = L)
      by (unfold len in *; rewrite length_firstn; lia).
    rewrite Ea, len_app in H. unfold len in H at 2. simpl in H.
    pose proof (len_nonneg b). unfold len in *. lia. }
  assert (Hpos : breakPos line L = len a).
  { unfold breakPos. rewrite Hsub, Hidx.
    destruct (Z.leb_spec (len a) 0); [lia | reflexivity]. }
  assert (Hnext : nextStart line L (len a) = len a + 1).
  { assert (Hio : indexOf line space (len a) = len a)
      by (rewrite Eline; apply indexOf_here).
    unfold nextStart. rewrite Hio.
    destruct (Z.ltb_spec (len a + 1) (len a)); [lia |].
    destruct (Z.gtb_spec (len a + 1) (len a + L)); [lia | reflexivity]. }
  exists a, rest. split; [exact Eline |]. rewrite Hpos, Hnext. repeat split.
  - rewrite substring_prefix by lia. unfold len. rewrite Nat2Z.id.
    rewrite Eline. apply take_app_exact.
  - rewrite substringFrom_suffix by lia.
    replace (Z.to_nat (len a + 1)) with (S (List.length a)) by (unfold len; lia).
    rewrite Eline. apply drop_app_past.
  - unfold wellBehaved. rewrite Eline in Hadj, Hruns.
    pose proof (noAdjacentSpaces_suffix a (space :: rest) Hadj) as Hs.
    simpl in Hs. apply andb_prop in Hs. destruct Hs as [_ Hs].
    rewrite Hs, (noAdjacentSpaces_after_space a rest Hadj). simpl.
    apply runsShorter_Forall. apply runsShorter_Forall in Hruns.
    rewrite split_app_sep in Hruns. apply Forall_app in Hruns. tauto.
Qed.

Lemma splitLine_rejoin fuel : forall line ls,
  wellBehaved L line = true ->
  splitLine fuel line L [] = Some ls -> join ls space = line.
Proof.
  induction fuel as [|fuel IH]; intros line ls Hwb; simpl; [discriminate |].
  destruct (Z.gtb_spec (len line) L) as [Hgt | Hle].
  - destruct (break_at_space line Hwb Hgt) as (a & rest & Eline & -> & -> & Hwb').
    rewrite splitLine_acc.
    destruct (splitLine fuel rest L []) as [g|] eqn:E; simpl; [| discriminate].
    intros [= <-].
    rewrite join_cons by (eapply splitLine_nonempty; eauto).
    rewrite (IH rest g Hwb' E). symmetry. exact Eline.
  - intros [= <-]. reflexivity.
Qed.

End Rejoin.

(** C10: on well-behaved input nothing is lost.  For every bound [L >= 1]
    and every text whose newline-delimited segments have no two adjacent
    spaces, no leading space and only runs of non-space characters shorter
    than [L], the wrapper returns the concatenation of one group of lines
    per segment, and rejoining each group with single spaces gives back the
    segments, character for character. *)
Theorem splitLines_preserves_content (text : str) (L : Z) (fuel : nat) :
  1 <= L -> (List.length text < fuel)%nat ->
  forallb (wellBehaved L) (split text newline) = true ->
  exists groups,
    splitLines fuel text L = Some (List.concat groups)
    /\ Forall2 (fun seg g => splitLine fuel seg L [] = Some g)
               (split text newline) groups
    /\ map (fun g => join g space) groups = split text newline.
Proof.
  intros HL Hf Hwb.
  destruct (splitLines_terminates L HL fuel text Hf) as [ls Hls].
  apply splitLines_groups in Hls. destruct Hls as (groups & HF & ->).
  exists groups. split; [| split; [exact HF |]].
  - apply splitLines_groups. now exists groups.
  - rewrite forallb_forall in Hwb. revert Hwb.
    induction HF as [|seg g segs gs Hg HF IH]; intros Hwb; [reflexivity |].
    simpl. f_equal.
    + eapply splitLine_rejoin; eauto. apply Hwb. now left.
    + apply IH. intros x Hx. apply Hwb. now right.
Qed.

Lemma splitLines_preserves_content_witness :
  exists groups,
    splitLines 41 (s "This place was amazing! Highly recommend") 20
    = Some (List.concat groups)
    /\ Forall2 (fun seg g => splitLine 41 seg 20 [] = Some g)
               (split (s "This place was amazing! Highly recommend") newline)
               groups
    /\ map (fun g => join g space) groups
       = split (s "This place was amazing! Highly recommend") newline.
Proof.
  apply (splitLines_preserves_content
           (s "This place was amazing! Highly recommend") 20 41);
    [lia | simpl; lia | reflexivity].
Defined.

(** ** Font-size solver *)

(** [Math.floor((min + max) / 2)] *)
Lemma midpoint_bounds a b : 2 * ((a + b) / 2) <= a + b < 2 * ((a + b) / 2) + 2.
Proof.
  pose proof (Z.div_mod (a + b) 2 ltac:(lia)).
  pose proof (Z.mod_pos_bound (a + b) 2 ltac:(lia)).
  lia.
Qed.

Section Solver.

Variable canvasWidth : Q.
Variable measureText : Z -> str -> TextMetrics.
Variable text : str.

Local Abbreviation fits size := (negb (overflows canvasWidth (measureText size text))).
Local Abbreviation loop := (fontDichotomy canvasWidth measureText).

(** The dichotomy ends for every pair of bounds: once [max - min > 1] the
    midpoint lies strictly between them. *)
Lemma fontDichotomy_terminates fuel : forall min max,
  (Z.to_nat (max - min) < fuel)%nat -> exists r, loop fuel text min max = Some r.
Proof.
  induction fuel as [|fuel IH]; intros min max Hf; [lia |]. simpl.
  pose proof (midpoint_bounds min max) as Hmid.
  destruct (overflows canvasWidth (measureText ((min + max) / 2) text)).
  - destruct (Z.gtb_spec ((min + max) / 2 - min) 1); [| eauto].
    apply IH. lia.
  - destruct (Z.gtb_spec (max - (min + max) / 2) 1); [| eauto].
    apply IH. lia.
Qed.

(** The returned size is the lower bound, which only ever moves to a size
    that was measured and found to fit. *)
Lemma fontDichotomy_fits fuel : forall min max r,
  loop fuel text min max = Some r -> r = min \/ fits r = true.
Proof.
  induction fuel as [|fuel IH]; intros min max r; simpl; [discriminate |].
  destruct (overflows canvasWidth (measureText ((min + max) / 2) text)) eqn:Eo.
  - destruct (Z.gtb_spec ((min + max) / 2 - min) 1).
    + apply IH.
    + intros [= <-]. now left.
  - assert (Hmid : fits ((min + max) / 2) = true) by now rewrite Eo.
    destruct (Z.gtb_spec (max - (min + max) / 2) 1) as [Hgt | Hle].
    + intros H. apply IH in H. destruct H as [-> | H]; now right.
    + intros [= <-]. now right.
Qed.

(** The upper bound is never returned. *)
Lemma fontDichotomy_below_max fuel : forall min max r,
  min < max -> loop fuel text min max = Some r -> r < max.
Proof.
  induction fuel as [|fuel IH]; intros min max r Hlt; simpl; [discriminate |].
  pose proof (midpoint_bounds min max) as Hmid.
  destruct (overflows canvasWidth (measureText ((min + max) / 2) text)).
  - destruct (Z.gtb_spec ((min + max) / 2 - min) 1) as [Hgt | Hle].
    + intros H. apply IH in H; lia.
    + intros [= <-]. lia.
  - destruct (Z.gtb_spec (max - (min + max) / 2) 1) as [Hgt | Hle].
    + intros H. apply IH in H; lia.
    + intros [= <-]. lia.
Qed.

(** Under a provider that is monotonic in the font size, no size strictly
    between the result and the initial upper bound fits. *)
Lemma fontDichotomy_optimal (top : Z) :
  (forall a b, a <= b -> fits b = true -> fits a = true) ->
  forall fuel min max r,
    min < max -> max <= top -> (max = top \/ fits max = false) ->
    loop fuel text min max = Some r ->
    forall size, r < size < top -> fits size = false.
Proof.
  intros Hmono. induction fuel as [|fuel IH]; intros min max r Hlt Htop Hmax;
    simpl; [discriminate |].
  pose proof (midpoint_bounds min max) as Hb.
  destruct (overflows canvasWidth (measureText ((min + max) / 2) text)) eqn:Eo.
  - assert (Hmid : fits ((min + max) / 2) = false) by now rewrite Eo.
    destruct (Z.gtb_spec ((min + max) / 2 - min) 1) as [Hgt | Hle].
    + apply IH; [lia | lia | now right].
    + intros [= <-] size Hs.
      destruct (fits size) eqn:Es; [| reflexivity].
      rewrite (Hmono ((min + max) / 2) size) in Hmid; [discriminate | lia | exact Es].
  - destruct (Z.gtb_spec (max - (min + max) / 2) 1) as [Hgt | Hle].
    + apply IH; [lia | lia | exact Hmax].
    + intros [= <-] size Hs. destruct Hmax as [-> | Hmax]; [lia |].
      destruct (fits size) eqn:Es; [| reflexivity].
      rewrite (Hmono max size) in Hmax; [discriminate | lia | exact Es].
Qed.

End Solver.

(** ** Word renderer *)

Section Renderer.

Variable baseFontColor specialWordFontColor : string.
Variable specialWordList : list str.
Variable measureText : Z -> str -> TextMetrics.
Variable toLowerCase : str -> str.
Variable levenshtein_get : str -> str -> Z.

Local Abbreviation draw := (drawWord baseFontColor specialWordFontColor specialWordList
                                 measureText toLowerCase levenshtein_get).
Local Abbreviation plain := (drawPlain baseFontColor specialWordFontColor specialWordList
                                   measureText toLowerCase levenshtein_get).
Local Abbreviation color := (getColor baseFontColor specialWordFontColor specialWordList
                                  toLowerCase levenshtein_get).
Local Abbreviation drawOp := (plainOp baseFontColor specialWordFontColor specialWordList
                                   toLowerCase levenshtein_get).

Lemma drawWord_plain context word x y fontSize :
  splitsBang word = false ->
  draw context word x y fontSize = plain context word x y fontSize.
Proof.
  intros H.
  funelim (drawWord _ _ _ _ _ _ context word x y fontSize);
    [congruence | reflexivity].
Qed.

Lemma drawWord_bang context word x y fontSize :
  splitsBang word = true ->
  draw context word x y fontSize =
  let r1 := draw context (substring word 0 (len word - 1)) x y fontSize in
  let r2 := draw (snd r1) [bang] (x + fst r1)%Q y fontSize in
  ((fst r1 + fst r2)%Q, snd r2).
Proof.
  intros H.
  funelim (drawWord _ _ _ _ _ _ context word x y fontSize);
    [reflexivity | congruence].
Qed.

(** [drawWord] never changes the font; it only appends drawing calls, at
    least one, all issued under the font of the context. *)
Lemma drawWord_effect context word x y fontSize :
  font (snd (draw context word x y fontSize)) = font context
  /\ exists ops,
       drawn (snd (draw context word x y fontSize)) = drawn context ++ ops
       /\ ops <> []
       /\ Forall (fun o => op_font o = font context) ops.
Proof.
  funelim (drawWord _ _ _ _ _ _ context word x y fontSize).
  - cbv zeta. cbn [fst snd].
    match goal with
    | IH1 : font (snd (drawWord _ _ _ _ _ _ context _ _ _ _)) = font context /\ _,
      IH2 : font (snd (drawWord _ _ _ _ _ _ (snd _) _ _ _ _)) = _ /\ _ |- _ =>
        destruct IH1 as [F1 (ops1 & D1 & N1 & A1)];
        destruct IH2 as [F2 (ops2 & D2 & N2 & A2)]
    end.
    split; [congruence |].
    exists (ops1 ++ ops2). rewrite D2, D1, app_assoc. split; [reflexivity |].
    split; [destruct ops1; [congruence | discriminate] |].
    apply Forall_app. split; [assumption |].
    eapply Forall_impl; [| exact A2]. simpl. intros o Ho. congruence.
  - unfold drawPlain. cbn [fst snd font drawn]. split; [reflexivity |].
    eexists. split; [reflexivity |]. split; [discriminate |].
    constructor; [reflexivity | constructor].
Qed.

(** C7 (amended): for a word of more than one character ending in ['!'],
    [drawWord] draws the word without its last character at [x] by a
    recursive call, then ['!'] at [x] plus the advance returned for that
    prefix, and returns the sum of the two advances, the second being the
    measured width of ["! "].  When the prefix is not split in turn, these
    are exactly two drawing calls and the advance of the prefix is the
    measured width of the prefix followed by a space. *)
Theorem drawWord_exclamation context word x y fontSize :
  1 < len word -> endsWith word bang = true ->
  let prefix := substring word 0 (len word - 1) in
  let r1 := draw context prefix x y fontSize in
  draw context word x y fontSize
  = ((fst r1 + width (measureText (font (snd r1)) [bang; space]))%Q,
     {| font := font (snd r1);
        fillStyle := color (Some [bang]);
        drawn := drawn (snd r1)
                 ++ [drawOp (snd r1) [bang] (x + fst r1)%Q y fontSize] |})
  /\ (splitsBang prefix = false ->
      fst r1 = width (measureText (font context) (prefix ++ [space]))
      /\ drawn (snd r1) = drawn context ++ [drawOp context prefix x y fontSize]).
Proof.
  intros Hlen Hend prefix r1. split.
  - rewrite drawWord_bang
      by (unfold splitsBang; rewrite Hend; destruct (Z.gtb_spec (len word) 1); [reflexivity | lia]).
    cbv zeta. fold prefix. fold r1.
    rewrite (drawWord_plain (snd r1) [bang]) by reflexivity.
    reflexivity.
  - intros Hp. subst r1. rewrite (drawWord_plain context prefix) by exact Hp.
    split; reflexivity.
Qed.

Lemma str_eqb_eq a b : str_eqb a b = true <-> a = b.
Proof.
  revert b. induction a as [|x a IH]; intros [|y b]; simpl; split;
    try discriminate; try reflexivity.
  - intros H. apply andb_prop in H. destruct H as [H1 H2].
    apply Ascii.eqb_eq in H1. apply IH in H2. congruence.
  - intros [= -> ->]. rewrite Ascii.eqb_refl. now apply IH.
Qed.

Lemma isSpecial_spec word specialWord :
  isSpecial toLowerCase levenshtein_get word specialWord = true
  <-> matchesSpecial toLowerCase levenshtein_get word specialWord.
Proof.
  unfold isSpecial, matchesSpecial.
  destruct (Z.gtb_spec (len specialWord) 3) as [Hgt | Hle].
  - rewrite Z.leb_le. split; [intros H; right; split; [lia | exact H] |].
    intros [[H _] | [_ H]]; [lia | exact H].
  - rewrite str_eqb_eq. split; [intros H; left; split; [lia | exact H] |].
    intros [[_ H] | [H _]]; [exact H | lia].
Qed.

Lemma getColor_special word :
  word <> [] ->
  (exists specialWord, In specialWord specialWordList
     /\ matchesSpecial toLowerCase levenshtein_get word specialWord) ->
  color (Some word) = specialWordFontColor.
Proof.
  intros Hne (sw & Hin & Hm). destruct word as [|c w]; [congruence |].
  unfold getColor.
  replace (existsb _ specialWordList) with true; [reflexivity |].
  symmetry. apply existsb_exists. exists sw. split; [exact Hin |].
  now apply isSpecial_spec.
Qed.

Lemma getColor_base word :
  ~ (exists specialWord, In specialWord specialWordList
       /\ matchesSpecial toLowerCase levenshtein_get word specialWord) ->
  color (Some word) = baseFontColor.
Proof.
  intros Hno. destruct word as [|c w]; [reflexivity |].
  unfold getColor.
  destruct (existsb _ specialWordList) eqn:E; [| reflexivity].
  exfalso. apply Hno. apply existsb_exists in E. destruct E as (sw & Hin & Hm).
  exists sw. split; [exact Hin | now apply isSpecial_spec].
Qed.

End Renderer.

Lemma drawWord_exclamation_witness :
  fst (drawWord "#fff" "#FB7417" [s "amazing"] monoMeasure asciiLowerCase
         levenshtein (freshContext 10) (s "Great!") 0 0 10)
  = (fst (drawWord "#fff" "#FB7417" [s "amazing"] monoMeasure asciiLowerCase
            levenshtein (freshContext 10) (s "Great") 0 0 10)
     + width (monoMeasure 10 (s "! ")))%Q.
Proof.
  destruct (drawWord_exclamation "#fff" "#FB7417" [s "amazing"] monoMeasure
              asciiLowerCase levenshtein (freshContext 10) (s "Great!") 0 0 10)
    as [H _]; [now vm_compute | reflexivity |].
  exact (f_equal fst H).
Defined.

(** C7, as stated, fails: under a monospace font of size 10 the advance
    returned for ["Great!"] is the width of ["Great "] plus the width of
    ["! "] (80 pixels), not the width of ["Great! "] (70 pixels). *)
Lemma drawWord_advance_counterexample :
  1 < len (s "Great!") /\ endsWith (s "Great!") bang = true
  /\ ~ (fst (drawWord "#fff" "#FB7417" [s "amazing"] monoMeasure asciiLowerCase
               levenshtein (freshContext 10) (s "Great!") 0 0 10)
        == width (monoMeasure 10 (s "Great! ")))%Q.
Proof.
  split; [now vm_compute |]. split; [reflexivity |].
  vm_compute. intros H. discriminate H.
Qed.

(** C8: [getColor] gives the base color to a null or empty word; to any
    other word it gives the special color when some configured special word
    matches it (case-insensitive equality for special words of at most three
    characters, collation-aware edit distance at most two for longer ones)
    and the base color when none does.  In particular [""] is base, ["ok"]
    is special under the list [["ok"]], and ["wonderfull"] is special under
    any list containing ["wonderful"]. *)
Theorem getColor_classification
    (baseFontColor specialWordFontColor : string) (specialWordList : list str)
    (toLowerCase : str -> str) (levenshtein_get : str -> str -> Z) :
  let color := getColor baseFontColor specialWordFontColor specialWordList
                        toLowerCase levenshtein_get in
  let matched word :=
    exists specialWord, In specialWord specialWordList
      /\ matchesSpecial toLowerCase levenshtein_get word specialWord in
  color None = baseFontColor
  /\ color (Some []) = baseFontColor
  /\ (forall word, word <> [] -> matched word ->
        color (Some word) = specialWordFontColor)
  /\ (forall word, word <> [] -> ~ matched word ->
        color (Some word) = baseFontColor)
  /\ getColor baseFontColor specialWordFontColor [s "ok"] asciiLowerCase
       levenshtein (Some (s "ok")) = specialWordFontColor
  /\ (In (s "wonderful") specialWordList ->
      getColor baseFontColor specialWordFontColor specialWordList asciiLowerCase
        levenshtein (Some (s "wonderfull")) = specialWordFontColor).
Proof.
  intros color matched. split; [reflexivity |]. split; [reflexivity |].
  split; [intros word Hne Hm; now apply getColor_special |].
  split; [intros word _ Hm; now apply getColor_base |].
  split; [reflexivity |].
  intros Hin. apply getColor_special; [discriminate |].
  exists (s "wonderful"). split; [exact Hin |].
  right. split; now vm_compute.
Qed.

Lemma getColor_classification_witness :
  getColor "#fff" "#FB7417" [s "amazing"; s "wonderful"] asciiLowerCase
    levenshtein (Some (s "amazin")) = "#FB7417"%string
  /\ getColor "#fff" "#FB7417" [s "amazing"; s "wonderful"] asciiLowerCase
       levenshtein (Some (s "place")) = "#fff"%string
  /\ getColor "#fff" "#FB7417" [s "amazing"; s "wonderful"] asciiLowerCase
       levenshtein (Some (s "wonderfull")) = "#FB7417"%string.
Proof.
  destruct (getColor_classification "#fff" "#FB7417"
              [s "amazing"; s "wonderful"] asciiLowerCase levenshtein)
    as (_ & _ & Hs & Hb & _ & Hw).
  split; [| split].
  - apply Hs; [discriminate |].
    exists (s "amazing"). split; [now left |]. right. split; now vm_compute.
  - apply Hb; [discriminate |].
    intros (sw & [<- | [<- | []]] & [[H _] | [_ H]]); vm_compute in H;
      try discriminate; apply H; reflexivity.
  - apply Hw. right. now left.
Defined.

(** ** What the solver returns *)

Section SolverResult.

Variable canvasWidth : Q.
Variable maxFontSize : Z.
Variable measureText : Z -> str -> TextMetrics.

Local Abbreviation fits size text :=
  (negb (overflows canvasWidth (measureText size text))).
Local Abbreviation solve := (computeFontSize canvasWidth maxFontSize measureText).

Lemma fontDichotomy_ge_min text fuel : forall min max r,
  min <= max ->
  fontDichotomy canvasWidth measureText fuel text min max = Some r -> min <= r.
Proof.
  induction fuel as [|fuel IH]; intros min max r Hle; simpl; [discriminate |].
  pose proof (midpoint_bounds min max) as Hmid.
  destruct (overflows canvasWidth (measureText ((min + max) / 2) text)).
  - destruct (Z.gtb_spec ((min + max) / 2 - min) 1) as [Hgt | Hng].
    + apply IH. lia.
    + intros [= <-]. lia.
  - destruct (Z.gtb_spec (max - (min + max) / 2) 1) as [Hgt | Hng].
    + intros H. apply IH in H; lia.
    + intros [= <-]. lia.
Qed.

(** The solver returns for every configuration, even a non-positive
    [maxFontSize]. *)
Lemma computeFontSize_terminates text fuel :
  (Z.to_nat maxFontSize < fuel)%nat -> exists r, solve fuel text = Some r.
Proof.
  intros Hf. apply fontDichotomy_terminates.
  replace (maxFontSize - 0) with maxFontSize by lia. exact Hf.
Qed.

(** A positive result was measured and fits, whatever the provider. *)
Lemma computeFontSize_fits text fuel r :
  solve fuel text = Some r -> r <> 0 -> fits r text = true.
Proof.
  intros H Hr. apply fontDichotomy_fits in H. destruct H as [-> | H]; [lia | exact H].
Qed.

(** Under a provider that is monotonic in the font size and lets the text
    fit at size 0, the result is the largest fitting size below
    [maxFontSize]; [maxFontSize] itself is not a candidate. *)
Lemma computeFontSize_largest_below_max text fuel r :
  1 <= maxFontSize ->
  (forall a b, a <= b -> fits b text = true -> fits a text = true) ->
  fits 0 text = true ->
  solve fuel text = Some r ->
  0 <= r < maxFontSize /\ fits r text = true
  /\ forall size, r < size < maxFontSize -> fits size text = false.
Proof.
  intros Hmax Hmono H0 H. unfold computeFontSize in H.
  pose proof (fontDichotomy_ge_min text fuel 0 maxFontSize r ltac:(lia) H).
  pose proof (fontDichotomy_below_max canvasWidth measureText text fuel
                0 maxFontSize r ltac:(lia) H).
  split; [lia |]. split.
  - destruct (fontDichotomy_fits canvasWidth measureText text fuel _ _ _ H)
      as [-> | Hf]; assumption.
  - apply (fontDichotomy_optimal canvasWidth measureText text maxFontSize Hmono
             fuel 0 maxFontSize r); auto; lia.
Qed.

(** The [/review] route does return [maxFontSize] for a text that fits at
    that size. *)
Lemma reviewFontSize_keeps_max text fuel :
  overflows canvasWidth (measureText maxFontSize text) = false ->
  reviewFontSize canvasWidth maxFontSize measureText (S fuel) text
  = Some maxFontSize.
Proof. intros H. unfold reviewFontSize. simpl. now rewrite H. Qed.

(** C1, at the failing inputs: for every [maxFontSize >= 1] the solver
    returns, and what it returns is strictly below [maxFontSize] for every
    text and every provider, so [maxFontSize] is not returned even for a
    text that fits at that size (the empty text under a provider that gives
    it no extent). *)
Theorem computeFontSize_never_maxFontSize text fuel :
  1 <= maxFontSize -> (Z.to_nat maxFontSize < fuel)%nat ->
  exists r,
    computeFontSize canvasWidth maxFontSize measureText fuel text = Some r
    /\ r < maxFontSize.
Proof.
  intros Hmax Hf. destruct (computeFontSize_terminates text fuel Hf) as [r Hr].
  exists r. split; [exact Hr |].
  eapply fontDichotomy_below_max; [| exact Hr]. lia.
Qed.

End SolverResult.

Lemma computeFontSize_never_maxFontSize_witness :
  overflows 1275 (zeroMeasure 200 (s "")) = false
  /\ exists r, computeFontSize 1275 200 zeroMeasure 201 (s "") = Some r /\ r < 200.
Proof.
  split; [reflexivity |].
  apply (computeFontSize_never_maxFontSize 1275 200 zeroMeasure (s "") 201);
    [lia | simpl; lia].
Defined.

(** The empty text under the default configuration of the [/image] route:
    199, not 200, where the loop of the [/review] route gives 200. *)
Example computeFontSize_empty_text :
  computeFontSize 1275 200 zeroMeasure 9 (s "") = Some 199
  /\ overflows 1275 (zeroMeasure 200 (s "")) = false
  /\ reviewFontSize 1275 200 zeroMeasure 1 (s "") = Some 200.
Proof. repeat split; reflexivity. Qed.

(** ** Non-positive wrap widths *)

(** With a bound [L <= 0] the loop makes no progress on a segment longer
    than [L]: the break position and the restart index are both [L], the
    remainder is the segment itself, and an empty line is pushed at every
    iteration. *)
Lemma splitLine_stuck (L : Z) (line : str) :
  L <= 0 -> L < len line ->
  substring line 0 (breakPos line L) = []
  /\ substringFrom line (nextStart line L (breakPos line L)) = line.
Proof.
  intros HL Hlen. pose proof (len_nonneg line) as Hnn.
  assert (Hc : clamp line L = 0%nat) by (unfold clamp; lia).
  assert (Hc0 : clamp line 0 = 0%nat) by (unfold clamp; lia).
  assert (Hsub : substring line 0 L = []).
  { unfold substring. rewrite Hc, Hc0. reflexivity. }
  assert (Hpos : breakPos line L = L).
  { unfold breakPos. rewrite Hsub. reflexivity. }
  rewrite Hpos. split; [exact Hsub |].
  assert (Hnext : nextStart line L L = L).
  { unfold nextStart. pose proof (indexOf_bounds line space L) as Hb.
    destruct (Z.ltb_spec (indexOf line space L + 1) L);
      destruct (Z.gtb_spec (indexOf line space L + 1) (L + L)); simpl; lia. }
  rewrite Hnext. unfold substringFrom. rewrite Hc. reflexivity.
Qed.

Lemma splitLine_diverges (L : Z) (line : str) :
  L <= 0 -> L < len line -> forall fuel acc, splitLine fuel line L acc = None.
Proof.
  intros HL Hlen. destruct (splitLine_stuck L line HL Hlen) as [_ Hrest].
  induction fuel as [|fuel IH]; intros acc; simpl; [reflexivity |].
  destruct (Z.gtb_spec (len line) L); [| lia].
  rewrite Hrest. apply IH.
Qed.

Lemma splitLines_zero_diverges (text : str) :
  Exists (fun seg => seg <> []) (split text newline) ->
  forall fuel, splitLines fuel text 0 = None.
Proof.
  intros Hex fuel. unfold splitLines. generalize (@nil str) as acc.
  induction Hex as [seg segs Hseg | seg segs Hex IH]; intros acc; simpl.
  - rewrite splitLine_diverges; [apply pushLines_None | lia |].
    destruct seg; [congruence | unfold len; simpl; lia].
  - destruct (splitLine fuel seg 0 acc); [apply IH | apply pushLines_None].
Qed.

Lemma longest_positive (lines : list str) :
  0 < getLongestLineLength lines -> Exists (fun l => l <> []) lines.
Proof.
  unfold getLongestLineLength.
  induction lines as [|l lines IH]; simpl; [lia |].
  destruct l as [|c l]; [| intros _; left; discriminate].
  intros H. right. apply IH. exact H.
Qed.

(** ** Layout optimizer *)

Section Layout.

Variable canvasWidth : Q.
Variable maxFontSize : Z.
Variable measureText : Z -> str -> TextMetrics.
Variable pow15 : Z -> Q.

Local Abbreviation layout := (imageLayout canvasWidth maxFontSize measureText pow15).
Local Abbreviation search := (wrapDichotomy canvasWidth maxFontSize measureText pow15).
Local Abbreviation step := (wrapStep canvasWidth measureText pow15).
Local Abbreviation solve := (computeFontSize canvasWidth maxFontSize measureText).

(** The layout [d] fits the canvas when its font size is not 0. *)
Local Abbreviation Fit d :=
  (d_maxFontSize d <> 0 ->
   overflows canvasWidth
     (measureText (d_maxFontSize d) (join (d_lines d) newline)) = false).

Lemma wrapDichotomy_unfold fuel text d :
  search (S fuel) text d =
  match splitLines (S fuel) text ((d_min d + d_max d) / 2) with
  | None => None
  | Some splittedLines =>
      match solve (S fuel) (join splittedLines newline) with
      | None => None
      | Some newFontSize =>
          let d' := step d ((d_min d + d_max d) / 2) splittedLines newFontSize in
          if d_max d' - d_min d' >? 1 then search fuel text d' else Some d'
      end
  end.
Proof. reflexivity. Qed.


(** A step keeps the best layout or replaces it by the candidate. *)
Lemma wrapStep_best d mid ls size :
  (d_maxFontSize (step d mid ls size) = d_maxFontSize d
   /\ d_lines (step d mid ls size) = d_lines d)
  \/ (d_maxFontSize (step d mid ls size) = size
      /\ d_lines (step d mid ls size) = ls
      /\ d_maxFontSize d < size).
Proof.
  unfold wrapStep. destruct (Z.gtb_spec size (d_maxFontSize d)); [| now left].
  right. destruct (Qgtb _ _); simpl; repeat split; lia.
Qed.

(** What the search returns is the layout it started from or a candidate
    that was solved for its own lines. *)
Lemma wrapDichotomy_best text fuel : forall d d',
  search fuel text d = Some d' ->
  (d_maxFontSize d' = d_maxFontSize d /\ d_lines d' = d_lines d)
  \/ exists n, solve n (join (d_lines d') newline) = Some (d_maxFontSize d')
               /\ d_maxFontSize d < d_maxFontSize d'.
Proof.
  induction fuel as [|fuel IH]; intros d d'; [discriminate |].
  rewrite wrapDichotomy_unfold.
  destruct (splitLines _ _ _) as [ls|]; [| discriminate].
  destruct (solve (S fuel) (join ls newline)) as [size|] eqn:Es; [| discriminate].
  cbv zeta.
  assert (Hstep : forall d1, d1 = step d ((d_min d + d_max d) / 2) ls size ->
            (d_maxFontSize d1 = d_maxFontSize d /\ d_lines d1 = d_lines d)
            \/ exists n, solve n (join (d_lines d1) newline) = Some (d_maxFontSize d1)
                         /\ d_maxFontSize d < d_maxFontSize d1).
  { intros d1 ->.
    destruct (wrapStep_best d ((d_min d + d_max d) / 2) ls size)
      as [H | (H1 & H2 & H3)]; [now left | right].
    exists (S fuel). rewrite H1, H2. split; [exact Es | exact H3]. }
  destruct (d_max _ - d_min _ >? 1).
  - intros H. apply IH in H.
    specialize (Hstep _ eq_refl).
    destruct H as [[E1 E2] | (n & Hn & Hlt)].
    + rewrite E1, E2. exact Hstep.
    + right. exists n. split; [exact Hn |].
      destruct Hstep as [[E1 _] | (_ & _ & Hlt')]; lia.
  - intros [= <-]. apply Hstep. reflexivity.
Qed.

(** Hence the result of the route's layout fits the canvas unless it is
    the seed: the newline-split input with the size solved on line 388. *)
Lemma imageLayout_fit_or_seed text fuel d :
  layout fuel text = Some d ->
  Fit d
  \/ (d_lines d = split text newline
      /\ solve fuel (join (split text newline) comma) = Some (d_maxFontSize d)).
Proof.
  unfold imageLayout.
  destruct (solve fuel (join (split text newline) comma)) as [seed|] eqn:Es;
    [| discriminate].
  intros H. apply wrapDichotomy_best in H. cbn [d_maxFontSize d_lines] in H.
  destruct H as [[E1 E2] | (n & Hn & _)].
  - right. rewrite E1, E2. split; reflexivity.
  - left. intros Hnz.
    pose proof (computeFontSize_fits canvasWidth maxFontSize measureText _ _ _ Hn Hnz) as Hf.
    now apply negb_true_iff in Hf.
Qed.

(** C3, at the failing inputs: when the longest line of the input has
    exactly one character, the first candidate wrap width is
    [floor((0 + 1) / 2) = 0], the line-splitting loop never ends on it, and
    so the layout returns for no iteration budget. *)
Theorem imageLayout_diverges text :
  getLongestLineLength (split text newline) = 1 ->
  forall fuel,
    imageLayout canvasWidth maxFontSize measureText pow15 fuel text = None.
Proof.
  intros H fuel. unfold imageLayout.
  destruct (solve fuel _) as [seed|]; [| reflexivity].
  destruct fuel as [|fuel]; [reflexivity |].
  rewrite wrapDichotomy_unfold. cbn [d_min d_max]. rewrite H.
  change ((0 + 1) / 2) with 0.
  rewrite splitLines_zero_diverges; [reflexivity |].
  apply longest_positive. lia.
Qed.

End Layout.

Lemma imageLayout_diverges_witness :
  splitLines 100 (s "a") 0 = None
  /\ forall fuel, imageLayout 1275 200 monoMeasure pow15_int fuel (s "a") = None.
Proof.
  split; [reflexivity |].
  apply (imageLayout_diverges 1275 200 monoMeasure pow15_int (s "a")).
  reflexivity.
Defined.

(** ** Termination of the layout away from one-character lines *)

Lemma longest_fold_bound (lines : list str) : forall m,
  let r := fold_left (fun max line => if len line >? max then len line else max) lines m in
  m <= r /\ Forall (fun l => len l <= r) lines.
Proof.
  induction lines as [|l lines IH]; intros m; simpl; [split; [lia | constructor] |].
  destruct (Z.gtb_spec (len l) m) as [Hgt | Hle].
  - destruct (IH (len l)) as [H1 H2]. split; [lia |]. constructor; [lia | exact H2].
  - destruct (IH m) as [H1 H2]. split; [lia |]. constructor; [lia | exact H2].
Qed.

Lemma longest_bound (lines : list str) :
  0 <= getLongestLineLength lines
  /\ Forall (fun l => len l <= getLongestLineLength lines) lines.
Proof. apply (longest_fold_bound lines 0). Qed.

Section LayoutTermination.

Variable canvasWidth : Q.
Variable maxFontSize : Z.
Variable measureText : Z -> str -> TextMetrics.
Variable pow15 : Z -> Q.
Variable text : str.

Local Abbreviation layout := (imageLayout canvasWidth maxFontSize measureText pow15).
Local Abbreviation search := (wrapDichotomy canvasWidth maxFontSize measureText pow15).
Local Abbreviation step := (wrapStep canvasWidth measureText pow15).
Local Abbreviation solve := (computeFontSize canvasWidth maxFontSize measureText).



End LayoutTermination.

(** C2, at a failing input: for the two-line text ["aa\nbb"] under a
    monospace font on the default canvas, no candidate beats the seed, so
    the route keeps the newline-split lines with the size 199 that line 388
    solved for ["aa,bb"]; at that size the newline-join of the returned
    lines overflows the canvas height, while solving for the newline-join
    itself gives 181. *)
Theorem imageLayout_seed_overflows :
  exists d,
    imageLayout 1275 200 monoMeasure pow15_int 20 (join [s "aa"; s "bb"] newline)
    = Some d
    /\ d_lines d = [s "aa"; s "bb"]
    /\ d_maxFontSize d = 199
    /\ overflows 1275
         (monoMeasure (d_maxFontSize d) (join (d_lines d) newline)) = true
    /\ computeFontSize 1275 200 monoMeasure 20 (join [s "aa"; s "bb"] comma)
       = Some 199
    /\ computeFontSize 1275 200 monoMeasure 20 (join [s "aa"; s "bb"] newline)
       = Some 181.
Proof.
  eexists. split; [vm_compute; reflexivity |].
  repeat split; reflexivity.
Qed.

(** ** Render phase *)

Section Route.

Variable canvasWidth : Q.
Variable maxFontSize : Z.
Variable baseFontColor specialWordFontColor : string.
Variable specialWordList : list str.
Variable measureText : Z -> str -> TextMetrics.
Variable pow15 : Z -> Q.
Variable toLowerCase : str -> str.
Variable levenshtein_get : str -> str -> Z.

Local Abbreviation draw :=
  (drawWord baseFontColor specialWordFontColor specialWordList
            measureText toLowerCase levenshtein_get).
Local Abbreviation line_ :=
  (drawLine canvasWidth baseFontColor specialWordFontColor specialWordList
            measureText toLowerCase levenshtein_get).
Local Abbreviation render_ :=
  (render canvasWidth baseFontColor specialWordFontColor specialWordList
          measureText pow15 toLowerCase levenshtein_get).

Lemma drawWords_effect (y : Q) (fontSize : Z) : forall words (st : Q * Context2d),
  let r := fold_left
             (fun st word =>
                let r := draw (snd st) word (fst st) y fontSize in
                ((fst st + fst r)%Q, snd r))
             words st in
  font (snd r) = font (snd st)
  /\ exists ops,
       drawn (snd r) = drawn (snd st) ++ ops
       /\ (words <> [] -> ops <> [])
       /\ Forall (fun o => op_font o = font (snd st)) ops.
Proof.
  induction words as [|w words IH]; intros st; cbv zeta; simpl.
  - split; [reflexivity |]. exists []. rewrite app_nil_r.
    repeat split; [congruence | constructor].
  - destruct (drawWord_effect baseFontColor specialWordFontColor specialWordList
                measureText toLowerCase levenshtein_get
                (snd st) w (fst st) y fontSize) as [F1 (ops1 & D1 & N1 & A1)].
    match goal with
    | |- context [fold_left _ words ?st1] =>
        destruct (IH st1) as [F2 (ops2 & D2 & _ & A2)]
    end.
    cbn [fst snd] in F2, D2, A2.
    split; [congruence |].
    exists (ops1 ++ ops2). rewrite D2, D1, app_assoc.
    split; [reflexivity |]. split; [intros _; destruct ops1; [congruence | discriminate] |].
    apply Forall_app. split; [exact A1 |].
    eapply Forall_impl; [| exact A2]. simpl. intros o Ho. congruence.
Qed.

Lemma drawLine_effect context line y fontSize :
  font (line_ context line y fontSize) = font context
  /\ exists ops,
       drawn (line_ context line y fontSize) = drawn context ++ ops
       /\ ops <> []
       /\ Forall (fun o => op_font o = font context) ops.
Proof.
  unfold drawLine.
  match goal with
  | |- context [fold_left _ _ ?st] =>
      destruct (drawWords_effect y fontSize (split line space) st)
        as [F (ops & D & N & A)]
  end.
  cbn [fst snd] in F, D, A. split; [exact F |].
  exists ops. repeat split; auto. apply N. apply split_nonempty.
Qed.

Lemma drawLines_effect (lineHeight : Q) (fontSize : Z) :
  forall lines (st : Q * Context2d),
  let r := fold_left
             (fun st line =>
                ((fst st + lineHeight)%Q, line_ (snd st) line (fst st) fontSize))
             lines st in
  font (snd r) = font (snd st)
  /\ exists ops,
       drawn (snd r) = drawn (snd st) ++ ops
       /\ (List.length lines <= List.length ops)%nat
       /\ Forall (fun o => op_font o = font (snd st)) ops.
Proof.
  induction lines as [|l lines IH]; intros st; cbv zeta; simpl.
  - split; [reflexivity |]. exists []. rewrite app_nil_r.
    repeat split; [simpl; lia | constructor].
  - destruct (drawLine_effect (snd st) l (fst st) fontSize)
      as [F1 (ops1 & D1 & N1 & A1)].
    match goal with
    | |- context [fold_left _ lines ?st1] =>
        destruct (IH st1) as [F2 (ops2 & D2 & L2 & A2)]
    end.
    cbn [fst snd] in F2, D2, A2.
    split; [congruence |].
    exists (ops1 ++ ops2). rewrite D2, D1, app_assoc.
    split; [reflexivity |]. split.
    + rewrite length_app. destruct ops1; [congruence | simpl; lia].
    + apply Forall_app. split; [exact A1 |].
      eapply Forall_impl; [| exact A2]. simpl. intros o Ho. congruence.
Qed.

(** The render phase draws every line, under the font size of the layout,
    whatever that size is. *)
Lemma render_effect d :
  (List.length (d_lines d) <= List.length (drawn (render_ d)))%nat
  /\ Forall (fun o => op_font o = d_maxFontSize d) (drawn (render_ d)).
Proof.
  unfold render.
  match goal with
  | |- context [fold_left _ _ ?st] =>
      destruct (drawLines_effect
                  (computeLineHeight pow15 (d_lines d)
                     (measureText (d_maxFontSize d) (join (d_lines d) newline)))
                  (d_maxFontSize d) (d_lines d) st)
        as [_ (ops & D & Hlen & A)]
  end.
  cbn [fst snd font drawn] in D, A. cbn [font] in *.
  rewrite D. simpl. split; assumption.
Qed.

(** C5 (amended): when the layout ends with font size 0, the route reports
    no failure: it answers with the image on which every line of the layout
    was drawn, each drawing call issued under font size 0. *)
Theorem imageRoute_renders_size_zero fuel text d :
  imageLayout canvasWidth maxFontSize measureText pow15 fuel text = Some d ->
  d_maxFontSize d = 0 ->
  exists canvas,
    imageRoute canvasWidth maxFontSize baseFontColor specialWordFontColor
      specialWordList measureText pow15 toLowerCase levenshtein_get fuel text
    = Some (Png canvas)
    /\ (List.length (d_lines d) <= List.length canvas)%nat
    /\ Forall (fun o => op_font o = 0) canvas.
Proof.
  intros Hd Hz. exists (drawn (render_ d)).
  unfold imageRoute. rewrite Hd. split; [reflexivity |].
  destruct (render_effect d) as [Hlen Hall]. rewrite Hz in Hall. split; assumption.
Qed.

End Route.

Lemma imageRoute_renders_size_zero_witness :
  exists d,
    imageLayout 3 200 monoMeasure pow15_int 50 (s "hi you!") = Some d
    /\ d_maxFontSize d = 0
    /\ exists canvas,
         imageRoute 3 200 "#fff" "#FB7417" [s "amazing"] monoMeasure pow15_int
           asciiLowerCase levenshtein 50 (s "hi you!") = Some (Png canvas)
         /\ (List.length (d_lines d) <= List.length canvas)%nat
         /\ Forall (fun o => op_font o = 0) canvas.
Proof.
  eexists. split; [vm_compute; reflexivity |]. split; [reflexivity |].
  eapply imageRoute_renders_size_zero; [vm_compute; reflexivity | reflexivity].
Defined.

(** C5, as stated, fails: on a canvas 3 pixels wide no positive size fits
    ["hi you!"], the solver gives 0 for the layout, and the route answers
    with an image on which the three words were drawn, not with a failure. *)
Lemma imageRoute_size_zero_counterexample :
  exists d canvas,
    imageLayout 3 200 monoMeasure pow15_int 50 (s "hi you!") = Some d
    /\ computeFontSize 3 200 monoMeasure 50 (join (d_lines d) newline) = Some 0
    /\ d_maxFontSize d = 0
    /\ imageRoute 3 200 "#fff" "#FB7417" [s "amazing"] monoMeasure pow15_int
         asciiLowerCase levenshtein 50 (s "hi you!") = Some (Png canvas)
    /\ map op_text canvas = [s "hi"; s "you"; s "!"]
    /\ Png canvas <> InternalServerError.
Proof.
  eexists. eexists. split; [vm_compute; reflexivity |].
  split; [vm_compute; reflexivity |]. split; [reflexivity |].
  split; [vm_compute; reflexivity |]. split; [reflexivity | discriminate].
Qed.

(** ** Arguments are taken as they come *)

(** C6 (amended): nothing validates the arguments and no error is
    raised for them.  With a wrap width of 0, which the layout search
    passes for the empty text, the wrapper returns the segments of a text
    whose newline-delimited segments are all empty, one empty line each.
    A [MAX_FONT_SIZE] of 0, or one that does not parse, is silently
    replaced by 200, a [CANVAS_WIDTH] by 1275 and a [MAX_LINE_LENGTH] by
    100.  A negative [MAX_FONT_SIZE] (down to [-2^53]) is kept as it is, and
    on a canvas of positive width the solver then measures once at
    [floor(maxFontSize / 2)] and returns 0 when that overflows and
    [floor(maxFontSize / 2)] otherwise. *)
Theorem arguments_not_validated :
  (forall fuel text,
     Forall (fun seg => seg = []) (split text newline) ->
     splitLines (S fuel) text 0 = Some (split text newline))
  /\ (configMaxFontSize (Some 0) = 200 /\ configMaxFontSize None = 200
      /\ configCanvasWidth (Some 0) = 1275 /\ configCanvasWidth None = 1275
      /\ configMaxLineLength (Some 0) = 100 /\ configMaxLineLength None = 100)
  /\ (forall canvasWidth parsed measureText fuel text,
        (0 < canvasWidth)%Q ->
        - 2 ^ 53 <= parsed < 0 ->
        configMaxFontSize (Some parsed) = parsed
        /\ computeFontSize canvasWidth (configMaxFontSize (Some parsed))
             measureText (S fuel) text
           = Some (if overflows canvasWidth (measureText (parsed / 2) text)
                   then 0 else parsed / 2)).
Proof.
  split; [| split].
  - intros fuel text H.
    apply (pushLines_short 0 fuel (split text newline) []).
    eapply Forall_impl; [| exact H]. simpl. intros seg ->. unfold len. simpl. lia.
  - repeat split; reflexivity.
  - intros canvasWidth parsed measureText fuel text _ [_ Hneg].
    assert (Hcfg : configMaxFontSize (Some parsed) = parsed).
    { unfold configMaxFontSize, orDefault.
      destruct (Z.eqb_spec parsed 0); [lia | reflexivity]. }
    split; [exact Hcfg |]. rewrite Hcfg.
    unfold computeFontSize. cbn [fontDichotomy]. rewrite Z.add_0_l.
    pose proof (midpoint_bounds 0 parsed) as Hmid. rewrite Z.add_0_l in Hmid.
    destruct (overflows canvasWidth (measureText (parsed / 2) text)).
    + destruct (Z.gtb_spec (parsed / 2 - 0) 1); [lia | reflexivity].
    + destruct (Z.gtb_spec (parsed - parsed / 2) 1); [lia | reflexivity].
Qed.

Lemma arguments_not_validated_witness :
  splitLines 1 [newline; newline] 0 = Some [[]; []; []]
  /\ configMaxFontSize (Some (-5)) = -5
  /\ computeFontSize 1275 (configMaxFontSize (Some (-5))) monoMeasure 1 (s "hello")
     = Some (-3).
Proof.
  destruct arguments_not_validated as (H1 & _ & H3). split.
  - apply (H1 0%nat [newline; newline]). repeat constructor.
  - destruct (H3 1275%Q (-5) monoMeasure 0%nat (s "hello")) as [Hc Hs];
      [reflexivity | split; [now vm_compute | lia] |].
    split; [exact Hc |]. rewrite Hs. reflexivity.
Defined.

(** C6, as stated, fails: a wrap width of 0 on the empty text produces a
    line; a [MAX_FONT_SIZE] of 0 is silently replaced by 200, for which the
    solver returns 199; and a [MAX_FONT_SIZE] of -5 is kept and gives the
    font size -3.  None of them is an error. *)
Lemma arguments_not_validated_counterexample :
  splitLines 1 (s "") 0 = Some [s ""]
  /\ configMaxFontSize (Some 0) = 200
  /\ computeFontSize 1275 (configMaxFontSize (Some 0)) monoMeasure 9 (s "hello")
     = Some 199
  /\ configMaxFontSize (Some (-5)) = -5
  /\ computeFontSize 1275 (configMaxFontSize (Some (-5))) monoMeasure 1 (s "hello")
     = Some (-3).
Proof. repeat split; reflexivity. Qed.

(** ** The end-to-end scenario of the specification *)

Example splitLines_scenario :
  splitLines 41 (s "This place was amazing! Highly recommend") 20
  = Some [s "This place was"; s "amazing! Highly"; s "recommend"].
Proof. reflexivity. Qed.

(** A hard break followed by a space within reach drops what lies between
    the break and that space. *)
Example splitLines_hard_break :
  splitLines 12 (s "abcdefgh ij") 5 = Some [s "abcde"; s "ij"].
Proof. reflexivity. Qed.

Example getColor_scenario :
  map (fun w => getColor "#fff" "#FB7417" [s "amazing"] asciiLowerCase
                  levenshtein (Some (s w)))
      ["This"; "place"; "was"; "amazing"; "Highly"; "recommend"]%string
  = ["#fff"; "#fff"; "#fff"; "#FB7417"; "#fff"; "#fff"]%string.
Proof. reflexivity. Qed.

(** * Further properties of the code *)

(** ** Line wrapper *)

(** X1: a wrap width that is at least the length of the longest line, the
    upper bound of the layout search, leaves the text as its
    newline-delimited lines. *)
Theorem splitLines_at_longest (text : str) (L : Z) (fuel : nat) :
  getLongestLineLength (split text newline) <= L ->
  splitLines (S fuel) text L = Some (split text newline).
Proof.
  intros H. apply (pushLines_short L fuel (split text newline) []).
  destruct (longest_bound (split text newline)) as [_ Hall].
  eapply Forall_impl; [| exact Hall]. simpl. intros l Hl. lia.
Qed.

Lemma splitLines_at_longest_witness :
  splitLines 1 (s "one line") 8 = Some [s "one line"].
Proof.
  apply (splitLines_at_longest (s "one line") 8 0). now vm_compute.
Defined.

(** X2: whatever the wrap width, the lines the wrapper returns hold no
    line break, are at least as many as the newline-delimited segments of
    the text, and hold only characters of the text. *)
Theorem splitLines_shape (text : str) (L : Z) (fuel : nat) (ls : list str) :
  splitLines fuel text L = Some ls ->
  Forall (fun l => ~ In newline l) ls
  /\ (List.length (split text newline) <= List.length ls)%nat
  /\ Forall (fun l => forall c, In c l -> In c text) ls.
Proof.
  intros H. split; [eapply splitLines_no_newline; eauto |]. split.
  - apply splitLines_groups in H. destruct H as (groups & HF & ->).
    induction HF as [|seg g segs gs Hg _ IH]; [simpl; lia |].
    apply splitLine_nonempty in Hg. simpl. rewrite length_app.
    destruct g; [congruence | simpl; lia].
  - assert (Hseg : Forall (fun seg => forall c, In c seg -> In c text)
                     (split text newline)).
    { clear H. induction text as [|x t IH]; simpl.
      - constructor; [auto | constructor].
      - destruct (Ascii.eqb x newline).
        + constructor; [intros c [] |].
          eapply Forall_impl; [| exact IH]. simpl. auto.
        + destruct (split t newline) as [|l rest].
          * constructor; [intros c [<- | []]; now left | constructor].
          * inversion IH as [|? ? Hl Hrest]; subst. constructor.
            -- intros c [<- | Hc]; [now left | right; auto].
            -- eapply Forall_impl; [| exact Hrest]. simpl. auto. }
    revert Hseg H.
    apply (splitLines_Forall (fun l => forall c, In c l -> In c text)
             (fun l => forall c, In c l -> In c text)).
    + intros line Hl _. split; intros c Hc; apply Hl.
      * eapply In_substring; eauto.
      * eapply In_substringFrom; eauto.
    + auto.
Qed.

Lemma splitLines_shape_witness :
  Forall (fun l => ~ In newline l) [s "abcde"; s "ij"]
  /\ (List.length (split (s "abcdefgh ij") newline) <= 2)%nat
  /\ Forall (fun l => forall c, In c l -> In c (s "abcdefgh ij"))
            [s "abcde"; s "ij"].
Proof.
  apply (splitLines_shape (s "abcdefgh ij") 5 12 [s "abcde"; s "ij"]).
  reflexivity.
Defined.

(** *** Forced hard breaks *)

Lemma lastIndexOf_absent (t : str) (c : ascii) : ~ In c t -> lastIndexOf t c = -1.
Proof.
  intros H. destruct (lastIndexOf_spec t c) as [[E _] | (a & b & E & _)]; [exact E |].
  exfalso. apply H. rewrite E. apply in_or_app. right. now left.
Qed.

Lemma indexFrom_absent (c : ascii) (t : str) : forall k,
  ~ In c t -> indexFrom c t k = -1.
Proof.
  induction t as [|x t IH]; intros k H; simpl; [reflexivity |].
  destruct (Ascii.eqb_spec x c) as [-> | _]; [exfalso; apply H; now left |].
  apply IH. intros Hin. apply H. now right.
Qed.

Lemma indexOf_absent (t : str) (c : ascii) (from : Z) :
  ~ In c t -> indexOf t c from = -1.
Proof.
  intros H. unfold indexOf. apply indexFrom_absent.
  intros Hin. apply H. eapply In_drop. exact Hin.
Qed.

Lemma indexFrom_first (c : ascii) (b rest : str) : forall k,
  ~ In c b -> indexFrom c (b ++ c :: rest) k = k + len b.
Proof.
  induction b as [|x b IH]; intros k H; simpl.
  - rewrite Ascii.eqb_refl. unfold len. simpl. lia.
  - destruct (Ascii.eqb_spec x c) as [-> | _]; [exfalso; apply H; now left |].
    rewrite IH by (intros Hin; apply H; now right).
    unfold len. cbn [List.length]. lia.
Qed.

Lemma indexOf_first (a b rest : str) (c : ascii) :
  ~ In c b -> indexOf (a ++ b ++ c :: rest) c (len a) = len a + len b.
Proof.
  intros H. unfold indexOf. rewrite clamp_in_range.
  - unfold len at 1 2. rewrite Nat2Z.id, skipn_app, Nat.sub_diag, skipn_all. simpl.
    now apply indexFrom_first.
  - rewrite len_app. pose proof (len_nonneg a).
    pose proof (len_nonneg (b ++ c :: rest)). lia.
Qed.

(** X3: a forced hard break loses text.  When a segment starts with [L]
    non-space characters [a], continues with fewer than [L] further
    non-space characters [b] and then a space, the loop emits [a] and
    resumes after that space: the characters [b] reach no line. *)
Theorem splitLine_hard_break_drops (L : Z) (a b rest : str) (fuel : nat)
    (acc : list str) :
  1 <= L -> len a = L -> ~ In space a -> ~ In space b -> len b < L ->
  splitLine (S fuel) (a ++ b ++ space :: rest) L acc
  = splitLine fuel rest L (acc ++ [a]).
Proof.
  intros HL Ha Hna Hnb Hb.
  pose proof (len_nonneg b) as Hb0. pose proof (len_nonneg rest) as Hr0.
  assert (Hlen : len (a ++ b ++ space :: rest) = L + len b + 1 + len rest).
  { rewrite !len_app. unfold len at 3. cbn [List.length].
    fold (len rest). unfold len in *. lia. }
  assert (Hsub : forall p, p = L -> substring (a ++ b ++ space :: rest) 0 p = a).
  { intros p ->. rewrite substring_prefix by lia.
    rewrite <- Ha. unfold len. rewrite Nat2Z.id. apply take_app_exact. }
  assert (Hpos : breakPos (a ++ b ++ space :: rest) L = L).
  { unfold breakPos. rewrite (Hsub L eq_refl), lastIndexOf_absent by assumption.
    reflexivity. }
  assert (Hnext : nextStart (a ++ b ++ space :: rest) L L = L + len b + 1).
  { assert (Hio : indexOf (a ++ b ++ space :: rest) space L = L + len b)
      by (rewrite <- Ha; now apply indexOf_first).
    unfold nextStart. rewrite Hio.
    destruct (Z.ltb_spec (L + len b + 1) L); [lia |].
    destruct (Z.gtb_spec (L + len b + 1) (L + L)); [lia | reflexivity]. }
  cbn [splitLine]. rewrite Hlen.
  destruct (Z.gtb_spec (L + len b + 1 + len rest) L); [| lia].
  rewrite Hpos, Hnext, (Hsub L eq_refl). f_equal.
  rewrite substringFrom_suffix by lia.
  replace (Z.to_nat (L + len b + 1)) with (S (List.length (a ++ b)))
    by (rewrite length_app; unfold len in *; lia).
  rewrite app_assoc. apply drop_app_past.
Qed.

Lemma splitLine_hard_break_drops_witness :
  splitLine 3 (s "abcdefgh ij") 5 [] = splitLine 2 (s "ij") 5 [s "abcde"].
Proof.
  apply (splitLine_hard_break_drops 5 (s "abcde") (s "fgh") (s "ij") 2 []);
    try (now vm_compute);
    vm_compute; intuition discriminate.
Defined.

(** X4: a segment without spaces loses nothing: for [L >= 1] it is cut
    into consecutive pieces that concatenate to the segment, every piece
    but the last being exactly [L] characters long. *)
Theorem splitLine_space_free (L : Z) (line : str) (fuel : nat) :
  1 <= L -> ~ In space line -> (List.length line < fuel)%nat ->
  exists ls,
    splitLine fuel line L [] = Some ls
    /\ List.concat ls = line
    /\ Forall (fun l => len l = L) (removelast ls).
Proof.
  intros HL. revert line.
  induction fuel as [|fuel IH]; intros line Hno Hf; [lia |].
  cbn [splitLine].
  destruct (Z.gtb_spec (len line) L) as [Hgt | Hle].
  - assert (Hpos : breakPos line L = L).
    { unfold breakPos. rewrite lastIndexOf_absent; [reflexivity |].
      intros Hin. apply Hno. eapply In_substring. exact Hin. }
    assert (Hnext : nextStart line L L = L).
    { unfold nextStart. rewrite indexOf_absent by assumption.
      destruct (Z.ltb_spec (-1 + 1) L); [reflexivity | lia]. }
    rewrite Hpos, Hnext, splitLine_acc.
    rewrite substring_prefix, substringFrom_suffix by lia.
    destruct (IH (skipn (Z.to_nat L) line)) as (ls & E & Hc & Hall).
    + intros Hin. apply Hno. eapply In_drop. exact Hin.
    + rewrite length_skipn. unfold len in *. lia.
    + rewrite E. simpl. eexists. split; [reflexivity |]. split.
      * simpl. rewrite Hc. apply firstn_skipn.
      * assert (Hne : ls <> []) by (eapply splitLine_nonempty; eauto).
        destruct ls as [|l ls]; [congruence |].
        change (removelast (firstn (Z.to_nat L) line :: l :: ls))
          with (firstn (Z.to_nat L) line :: removelast (l :: ls)).
        constructor; [| exact Hall].
        unfold len in *. rewrite length_firstn. lia.
  - exists [line]. split; [reflexivity |]. split; [simpl; apply app_nil_r |].
    constructor.
Qed.

Lemma splitLine_space_free_witness :
  exists ls,
    splitLine 12 (s "abcdefghijk") 4 [] = Some ls
    /\ List.concat ls = s "abcdefghijk"
    /\ Forall (fun l => len l = 4) (removelast ls).
Proof.
  apply (splitLine_space_free 4 (s "abcdefghijk") 12);
    [lia | vm_compute; intuition discriminate | simpl; lia].
Defined.

(** X5: with a negative wrap width the wrapper never returns, on any text,
    the empty one included: every segment is longer than the bound and the
    loop restarts on the whole segment. *)
Theorem splitLines_negative_diverges (L : Z) (text : str) :
  L < 0 -> forall fuel, splitLines fuel text L = None.
Proof.
  intros HL fuel. unfold splitLines.
  destruct (split text newline) as [|seg segs] eqn:E;
    [now apply split_nonempty in E |].
  simpl. rewrite splitLine_diverges; [apply pushLines_None | lia |].
  pose proof (len_nonneg seg). lia.
Qed.

Lemma splitLines_negative_diverges_witness :
  -1 < 0 /\ forall fuel, splitLines fuel (s "") (-1) = None.
Proof.
  split; [lia |]. apply (splitLines_negative_diverges (-1) (s "")). lia.
Defined.

(** ** Font-size solvers *)

Section SolverExtras.

Variable canvasWidth : Q.
Variable measureText : Z -> str -> TextMetrics.
Variable text : str.

Local Abbreviation over size := (overflows canvasWidth (measureText size text)).

(** X6: under a provider that is monotonic in the font size and lets the
    text fit at size 0, [computeFontSize] with [1 <= maxFontSize <= 2^53]
    returns the largest size of [0 .. maxFontSize - 1] at which the text
    fits. *)
Theorem computeFontSize_largest_fitting (maxFontSize : Z) (fuel : nat) :
  1 <= maxFontSize <= 2 ^ 53 ->
  (forall a b, a <= b -> over b = false -> over a = false) ->
  over 0 = false ->
  (Z.to_nat maxFontSize < fuel)%nat ->
  exists r,
    computeFontSize canvasWidth maxFontSize measureText fuel text = Some r
    /\ 0 <= r < maxFontSize
    /\ over r = false
    /\ forall size, r < size < maxFontSize -> over size = true.
Proof.
  intros [Hmax _] Hmono H0 Hf.
  destruct (computeFontSize_terminates canvasWidth maxFontSize measureText
              text fuel Hf) as [r Hr].
  exists r. split; [exact Hr |].
  destruct (computeFontSize_largest_below_max canvasWidth maxFontSize
              measureText text fuel r Hmax) as (Hrange & Hfit & Hopt); auto.
  - intros a b Hab Hb. apply negb_true_iff. apply negb_true_iff in Hb. eauto.
  - now apply negb_true_iff.
  - split; [exact Hrange |]. split; [now apply negb_true_iff |].
    intros size Hs. specialize (Hopt size Hs). now apply negb_false_iff in Hopt.
Qed.

(** In the integer model the result lies below the cap and, unless it is
    0, fits. *)
Lemma computeFontSize_range (maxFontSize : Z) (fuel : nat) (r : Z) :
  1 <= maxFontSize ->
  computeFontSize canvasWidth maxFontSize measureText fuel text = Some r ->
  0 <= r < maxFontSize /\ (r <> 0 -> over r = false).
Proof.
  intros Hmax H. split; [split |].
  - eapply fontDichotomy_ge_min; [| exact H]. lia.
  - eapply fontDichotomy_below_max; [| exact H]. lia.
  - intros Hr. apply negb_true_iff.
    eapply computeFontSize_fits; eauto.
Qed.

(** X7: whatever the provider, with [1 <= maxFontSize <= 2^53] the size
    returned by [computeFontSize] lies in [0 .. maxFontSize - 1] and, unless
    it is 0, was measured and fits the canvas. *)
Theorem computeFontSize_result (maxFontSize : Z) (fuel : nat) (r : Z) :
  1 <= maxFontSize <= 2 ^ 53 ->
  computeFontSize canvasWidth maxFontSize measureText fuel text = Some r ->
  0 <= r < maxFontSize /\ (r <> 0 -> over r = false).
Proof.
  intros [Hmax _] H. split; [split |].
  - eapply fontDichotomy_ge_min; [| exact H]. lia.
  - eapply fontDichotomy_below_max; [| exact H]. lia.
  - intros Hr. apply negb_true_iff.
    eapply computeFontSize_fits; eauto.
Qed.

(** X8: a larger cap never gives a smaller size: under a provider that is
    monotonic in the font size, [computeFontSize] with caps
    [1 <= m1 <= m2] returns sizes [r1 <= r2]. *)
Theorem computeFontSize_cap_monotone (m1 m2 : Z) (fuel1 fuel2 : nat) (r1 r2 : Z) :
  1 <= m1 <= m2 ->
  (forall a b, a <= b -> over b = false -> over a = false) ->
  computeFontSize canvasWidth m1 measureText fuel1 text = Some r1 ->
  computeFontSize canvasWidth m2 measureText fuel2 text = Some r2 ->
  r1 <= r2.
Proof.
  intros Hm Hmono H1 H2.
  destruct (computeFontSize_range m1 fuel1 r1 ltac:(lia) H1) as [Hr1 Hf1].
  destruct (computeFontSize_range m2 fuel2 r2 ltac:(lia) H2) as [Hr2 _].
  destruct (Z_le_gt_dec r1 r2) as [Hle | Hgt]; [exact Hle | exfalso].
  assert (Ho : negb (over r1) = false).
  { apply (fontDichotomy_optimal canvasWidth measureText text m2) with
      (fuel := fuel2) (min := 0) (max := m2) (r := r2); auto; try lia.
    intros a b Hab Hb. apply negb_true_iff. apply negb_true_iff in Hb. eauto. }
  apply negb_false_iff in Ho. rewrite Hf1 in Ho; [discriminate | lia].
Qed.




End SolverExtras.

(** The monospace provider is monotonic in the font size on every canvas. *)
Lemma monoMeasure_monotone (canvasWidth : Q) (text : str) (a b : Z) :
  a <= b ->
  overflows canvasWidth (monoMeasure b text) = false ->
  overflows canvasWidth (monoMeasure a text) = false.
Proof.
  intros Hab. unfold overflows, monoMeasure, Qgtb.
  cbn [width actualBoundingBoxAscent actualBoundingBoxDescent].
  destruct (longest_bound (split text newline)) as [Hk _].
  set (k := getLongestLineLength (split text newline)) in *.
  set (n := Z.of_nat (List.length (split text newline))).
  assert (Hn : 0 <= n) by (unfold n; lia).
  intros H. apply orb_false_iff in H. destruct H as [H1 H2].
  apply negb_false_iff, Qle_bool_iff in H1.
  apply negb_false_iff, Qle_bool_iff in H2.
  apply orb_false_iff. split; apply negb_false_iff, Qle_bool_iff.
  - eapply Qle_trans; [| exact H1]. unfold Qle. simpl. nia.
  - eapply Qle_trans; [| exact H2]. unfold Qle. simpl. nia.
Qed.

Lemma computeFontSize_largest_fitting_witness :
  exists r,
    computeFontSize 1275 200 monoMeasure 201 (s "hello") = Some r
    /\ 0 <= r < 200
    /\ overflows 1275 (monoMeasure r (s "hello")) = false
    /\ forall size, r < size < 200 ->
         overflows 1275 (monoMeasure size (s "hello")) = true.
Proof.
  apply (computeFontSize_largest_fitting 1275 monoMeasure (s "hello") 200 201);
    [split; [lia | now vm_compute] | | reflexivity | simpl; lia].
  intros a b. apply monoMeasure_monotone.
Defined.

Lemma computeFontSize_cap_monotone_witness :
  computeFontSize 1275 100 monoMeasure 20 (s "hello") = Some 99
  /\ computeFontSize 1275 200 monoMeasure 20 (s "hello") = Some 199
  /\ 99 <= 199.
Proof.
  split; [reflexivity |]. split; [reflexivity |].
  apply (computeFontSize_cap_monotone 1275 monoMeasure (s "hello")
           100 200 20 20 99 199); [lia | | reflexivity | reflexivity].
  intros a b. apply monoMeasure_monotone.
Defined.

Lemma computeFontSize_result_witness :
  0 <= 199 < 200
  /\ (199 <> 0 -> overflows 1275 (monoMeasure 199 (s "aa,bb")) = false).
Proof.
  apply (computeFontSize_result 1275 monoMeasure (s "aa,bb") 200 20 199);
    [split; [lia | now vm_compute] | reflexivity].
Defined.


(** *** The linear loop of the [/review] route *)

Section ReviewFont.

Variable canvasWidth : Q.
Variable measureText : Z -> str -> TextMetrics.
Variable text : str.

Local Abbreviation over size := (overflows canvasWidth (measureText size text)).

Lemma shrinkFont_result fuel : forall start r,
  shrinkFont canvasWidth measureText fuel text start = Some r ->
  r <= start /\ over r = false
  /\ forall size, r < size <= start -> over size = true.
Proof.
  induction fuel as [|fuel IH]; intros start r; simpl; [discriminate |].
  destruct (over start) eqn:E.
  - intros H. apply IH in H. destruct H as (H1 & H2 & H3).
    split; [lia |]. split; [exact H2 |].
    intros size Hs. destruct (Z.eq_dec size start) as [-> | Hne]; [exact E |].
    apply H3. lia.
  - intros [= <-]. split; [lia |]. split; [exact E |]. intros size Hs. lia.
Qed.



(** X11: when the text overflows at every size up to [maxFontSize], the
    loop of the [/review] route never ends: it keeps decrementing the font
    size below zero. *)
Theorem reviewFontSize_diverges (maxFontSize : Z) :
  (forall size, size <= maxFontSize -> over size = true) ->
  forall fuel,
    reviewFontSize canvasWidth maxFontSize measureText fuel text = None.
Proof.
  intros Hover fuel. unfold reviewFontSize.
  assert (H : forall start, start <= maxFontSize ->
            shrinkFont canvasWidth measureText fuel text start = None).
  { induction fuel as [|fuel IH]; intros start Hs; simpl; [reflexivity |].
    rewrite Hover by exact Hs. apply IH. lia. }
  apply H. lia.
Qed.

End ReviewFont.


Lemma reviewFontSize_diverges_witness :
  overflows 1275 (wideMeasure 100 (s "hello")) = true
  /\ forall fuel, reviewFontSize 1275 100 wideMeasure fuel (s "hello") = None.
Proof.
  split; [reflexivity |].
  apply (reviewFontSize_diverges 1275 wideMeasure (s "hello") 100).
  intros size _. reflexivity.
Defined.

(** ** Longest line *)

Lemma longest_fold_attained (lines : list str) : forall m,
  let r := fold_left (fun max line => if len line >? max then len line else max) lines m in
  r = m \/ exists l, In l lines /\ len l = r.
Proof.
  induction lines as [|l lines IH]; intros m; simpl; [now left |].
  destruct (Z.gtb_spec (len l) m) as [Hgt | Hle].
  - right. destruct (IH (len l)) as [E | (l' & Hin & E)].
    + exists l. split; [now left | now rewrite E].
    + exists l'. split; [now right | exact E].
  - destruct (IH m) as [E | (l' & Hin & E)]; [now left | right].
    exists l'. split; [now right | exact E].
Qed.

(** X12: [getLongestLineLength] is the maximum of the line lengths: no line
    is longer, some line of a non-empty array has exactly that length, and
    the empty array gives 0. *)
Theorem getLongestLineLength_is_max (lines : list str) :
  Forall (fun l => len l <= getLongestLineLength lines) lines
  /\ (lines <> [] -> exists l, In l lines /\ len l = getLongestLineLength lines)
  /\ getLongestLineLength [] = 0.
Proof.
  destruct (longest_bound lines) as [H0 Hall].
  split; [exact Hall |]. split; [| reflexivity].
  intros Hne.
  destruct (longest_fold_attained lines 0) as [E | H]; [| exact H].
  destruct lines as [|l lines]; [congruence |].
  exists l. split; [now left |].
  inversion Hall as [|? ? Hl _]; subst.
  pose proof (len_nonneg l). unfold getLongestLineLength in *. lia.
Qed.

Lemma getLongestLineLength_is_max_witness :
  exists l, In l [s "ab"; s "abcd"; s "abc"]
            /\ len l = getLongestLineLength [s "ab"; s "abcd"; s "abc"].
Proof.
  apply (getLongestLineLength_is_max [s "ab"; s "abcd"; s "abc"]). discriminate.
Defined.

(** ** Layout optimizer *)

Section LayoutExtras.

Variable canvasWidth : Q.
Variable maxFontSize : Z.
Variable measureText : Z -> str -> TextMetrics.
Variable pow15 : Z -> Q.

Local Abbreviation search := (wrapDichotomy canvasWidth maxFontSize measureText pow15).
Local Abbreviation step := (wrapStep canvasWidth measureText pow15).
Local Abbreviation solve := (computeFontSize canvasWidth maxFontSize measureText).

(** The search never lowers the best size, and the lines it holds are
    those it started with or the wrapping of the text at some width. *)
Lemma wrapDichotomy_lines text fuel : forall d d',
  search fuel text d = Some d' ->
  d_maxFontSize d <= d_maxFontSize d'
  /\ (d_lines d' = d_lines d
      \/ exists n L, splitLines n text L = Some (d_lines d')).
Proof.
  induction fuel as [|fuel IH]; intros d d'; [discriminate |].
  rewrite wrapDichotomy_unfold.
  destruct (splitLines (S fuel) text ((d_min d + d_max d) / 2)) as [ls|] eqn:Els;
    [| discriminate].
  destruct (solve (S fuel) (join ls newline)) as [size|]; [| discriminate].
  cbv zeta.
  assert (Hstep :
            d_maxFontSize d
            <= d_maxFontSize (step d ((d_min d + d_max d) / 2) ls size)
            /\ (d_lines (step d ((d_min d + d_max d) / 2) ls size) = d_lines d
                \/ exists n L, splitLines n text L
                     = Some (d_lines (step d ((d_min d + d_max d) / 2) ls size)))).
  { destruct (wrapStep_best canvasWidth measureText pow15 d
                ((d_min d + d_max d) / 2) ls size) as [[E1 E2] | (E1 & E2 & Hlt)].
    - rewrite E1, E2. split; [lia | now left].
    - rewrite E1, E2. split; [lia | right]. eauto. }
  destruct (d_max _ - d_min _ >? 1).
  - intros H. apply IH in H. destruct H as [H1 H2]. destruct Hstep as [S1 S2].
    split; [lia |].
    destruct H2 as [E | H2]; [rewrite E; exact S2 | now right].
  - intros [= <-]. exact Hstep.
Qed.

(** X13: for a text without line break the layout returned by the route
    fits the canvas whenever its font size is not 0: the seed is then
    solved for the text itself. *)
Theorem imageLayout_single_line_fits (text : str) (fuel : nat) (d : Dichotomy) :
  ~ In newline text ->
  imageLayout canvasWidth maxFontSize measureText pow15 fuel text = Some d ->
  d_maxFontSize d <> 0 ->
  overflows canvasWidth
    (measureText (d_maxFontSize d) (join (d_lines d) newline)) = false.
Proof.
  intros Hno H Hnz.
  destruct (imageLayout_fit_or_seed canvasWidth maxFontSize measureText pow15
              text fuel d H) as [Hfit | [El Es]]; [now apply Hfit |].
  rewrite split_no_sep in El, Es by exact Hno. simpl in Es.
  rewrite El. simpl. apply negb_true_iff.
  eapply computeFontSize_fits; eauto.
Qed.


(** X15: the layout the route returns never has a smaller font size than
    the seed, and its lines are a non-empty array of strings without line
    break: the newline-split input, or its wrapping at some width. *)
Theorem imageLayout_result (text : str) (fuel : nat) (d : Dichotomy) :
  imageLayout canvasWidth maxFontSize measureText pow15 fuel text = Some d ->
  (exists seed,
     solve fuel (join (split text newline) comma) = Some seed
     /\ seed <= d_maxFontSize d)
  /\ (d_lines d = split text newline
      \/ exists n L, splitLines n text L = Some (d_lines d))
  /\ d_lines d <> []
  /\ Forall (fun l => ~ In newline l) (d_lines d).
Proof.
  unfold imageLayout.
  destruct (solve fuel (join (split text newline) comma)) as [seed|]; [| discriminate].
  intros H. apply wrapDichotomy_lines in H. cbn [d_maxFontSize d_lines] in H.
  destruct H as [H1 H2].
  split; [exists seed; split; [reflexivity | exact H1] |].
  split; [exact H2 |].
  destruct H2 as [E | (n & L & E)].
  - rewrite E. split; [apply split_nonempty | apply split_pieces_no_sep].
  - split; [eapply splitLines_nonempty | eapply splitLines_no_newline]; eauto.
Qed.


End LayoutExtras.

Lemma imageLayout_single_line_fits_witness :
  overflows 1275
    (monoMeasure 85
       (join [s "This place was"; s "amazing! Highly"; s "recommend"] newline))
  = false.
Proof.
  apply (imageLayout_single_line_fits 1275 200 monoMeasure pow15_int
           (s "This place was amazing! Highly recommend") 50
           {| d_min := 0; d_max := 1; d_maxFontSize := 85;
              d_lines := [s "This place was"; s "amazing! Highly"; s "recommend"] |});
    [vm_compute; intuition discriminate | vm_compute; reflexivity | discriminate].
Defined.


Lemma imageLayout_result_witness :
  exists d,
    imageLayout 1275 200 monoMeasure pow15_int 50 (s "hi you") = Some d
    /\ d_lines d <> []
    /\ Forall (fun l => ~ In newline l) (d_lines d).
Proof.
  destruct (imageLayout 1275 200 monoMeasure pow15_int 50 (s "hi you"))
    as [d|] eqn:E; [| vm_compute in E; discriminate].
  exists d. split; [reflexivity |].
  destruct (imageLayout_result 1275 200 monoMeasure pow15_int (s "hi you") 50 d E)
    as (_ & _ & H3 & H4).
  split; assumption.
Defined.


(** ** Word renderer *)

Lemma concat_split (t : str) (c : ascii) :
  List.concat (split t c) = filter (fun x => negb (Ascii.eqb x c)) t.
Proof.
  induction t as [|x t IH]; simpl; [reflexivity |].
  destruct (Ascii.eqb x c); simpl; [exact IH |].
  destruct (split t c) as [|l ls] eqn:E; [now apply split_nonempty in E |].
  simpl in *. now rewrite IH.
Qed.

Lemma splitsBang_snoc (word : str) :
  splitsBang word = true -> substring word 0 (len word - 1) ++ [bang] = word.
Proof.
  unfold splitsBang, endsWith. intros H. apply andb_prop in H. destruct H as [_ H].
  destruct (rev word) as [|x l] eqn:E; [discriminate |].
  apply Ascii.eqb_eq in H. subst x.
  assert (Hw : word = rev l ++ [bang])
    by (rewrite <- (rev_involutive word), E; reflexivity).
  rewrite Hw at 1 2. rewrite len_app.
  replace (len (rev l) + len [bang] - 1) with (len (rev l)) by (unfold len; simpl; lia).
  rewrite substring_prefix
    by (rewrite len_app; pose proof (len_nonneg (rev l)); unfold len; simpl; lia).
  unfold len. rewrite Nat2Z.id, take_app_exact. now symmetry.
Qed.

Section RendererExtras.

Variable canvasWidth : Q.
Variable baseFontColor specialWordFontColor : string.
Variable specialWordList : list str.
Variable measureText : Z -> str -> TextMetrics.
Variable pow15 : Z -> Q.
Variable toLowerCase : str -> str.
Variable levenshtein_get : str -> str -> Z.

Local Abbreviation draw :=
  (drawWord baseFontColor specialWordFontColor specialWordList
            measureText toLowerCase levenshtein_get).
Local Abbreviation line_ :=
  (drawLine canvasWidth baseFontColor specialWordFontColor specialWordList
            measureText toLowerCase levenshtein_get).
Local Abbreviation render_ :=
  (render canvasWidth baseFontColor specialWordFontColor specialWordList
          measureText pow15 toLowerCase levenshtein_get).

(** The texts of the drawing calls made for a word spell the word. *)
Lemma drawWord_texts context word x y fontSize :
  exists ops,
    drawn (snd (draw context word x y fontSize)) = drawn context ++ ops
    /\ List.concat (map op_text ops) = word
    /\ Forall (fun o => op_y o = y /\ op_emoji o = fontSize) ops.
Proof.
  funelim (drawWord _ _ _ _ _ _ context word x y fontSize).
  - cbv zeta. cbn [fst snd].
    match goal with
    | IH1 : exists _, drawn (snd (drawWord _ _ _ _ _ _ context _ _ _ _)) = _ /\ _,
      IH2 : exists _, drawn (snd (drawWord _ _ _ _ _ _ (snd _) _ _ _ _)) = _ /\ _
      |- _ =>
        destruct IH1 as (ops1 & D1 & C1 & A1);
        destruct IH2 as (ops2 & D2 & C2 & A2)
    end.
    exists (ops1 ++ ops2). rewrite D2, D1, app_assoc. split; [reflexivity |].
    split; [| now apply Forall_app].
    rewrite map_app, concat_app, C1, C2. now apply splitsBang_snoc.
  - unfold drawPlain. cbn [fst snd drawn]. eexists. split; [reflexivity |].
    split; [simpl; apply app_nil_r | repeat constructor].
Qed.

(** X17: [drawWord] issues its drawing calls on the baseline [y] it was
    given, with the emoji size it was given, and their texts concatenate
    to the word: the exclamation splitting neither drops nor repeats a
    character. *)
Theorem drawWord_spells_word context word x y fontSize :
  exists ops,
    drawn (snd (drawWord baseFontColor specialWordFontColor specialWordList
                  measureText toLowerCase levenshtein_get
                  context word x y fontSize))
    = drawn context ++ ops
    /\ ops <> []
    /\ List.concat (map op_text ops) = word
    /\ Forall (fun o => op_y o = y /\ op_emoji o = fontSize
                        /\ op_font o = font context) ops.
Proof.
  destruct (drawWord_texts context word x y fontSize) as (ops & D & C & A).
  destruct (drawWord_effect baseFontColor specialWordFontColor specialWordList
              measureText toLowerCase levenshtein_get context word x y fontSize)
    as [_ (ops' & D' & N' & A')].
  rewrite D in D'. apply app_inv_head in D'. subst ops'.
  exists ops. repeat split; auto.
  rewrite Forall_forall in *. intros o Ho.
  destruct (A o Ho) as [H1 H2]. repeat split; auto.
Qed.

Lemma drawWords_texts (y : Q) (fontSize : Z) : forall words (st : Q * Context2d),
  exists ops,
    drawn (snd (fold_left
                  (fun st word =>
                     let r := draw (snd st) word (fst st) y fontSize in
                     ((fst st + fst r)%Q, snd r))
                  words st))
    = drawn (snd st) ++ ops
    /\ List.concat (map op_text ops) = List.concat words
    /\ Forall (fun o => op_y o = y) ops.
Proof using Type.
  induction words as [|w words IH]; intros st; simpl.
  - exists []. rewrite app_nil_r. repeat split; constructor.
  - destruct (drawWord_texts (snd st) w (fst st) y fontSize) as (ops1 & D1 & C1 & A1).
    match goal with
    | |- context [fold_left _ words ?st1] =>
        destruct (IH st1) as (ops2 & D2 & C2 & A2)
    end.
    cbn [fst snd] in D2.
    exists (ops1 ++ ops2). rewrite D2, D1, app_assoc. split; [reflexivity |].
    split; [now rewrite map_app, concat_app, C1, C2 |].
    apply Forall_app. split; [| exact A2].
    eapply Forall_impl; [| exact A1]. simpl. intros o [Hy _]. exact Hy.
Qed.

(** A line is drawn on one baseline, and the texts of its drawing calls
    concatenate to the line without its spaces. *)
Lemma drawLine_texts context line y fontSize :
  exists ops,
    drawn (line_ context line y fontSize) = drawn context ++ ops
    /\ List.concat (map op_text ops)
       = filter (fun c => negb (Ascii.eqb c space)) line
    /\ Forall (fun o => op_y o = y) ops.
Proof using Type.
  unfold drawLine.
  match goal with
  | |- context [fold_left _ _ ?st] =>
      destruct (drawWords_texts y fontSize (split line space) st)
        as (ops & D & C & A)
  end.
  cbn [fst snd] in D. exists ops. split; [exact D |].
  split; [| exact A]. rewrite C. apply concat_split.
Qed.

Lemma drawLines_texts (lineHeight : Q) (fontSize : Z) :
  forall lines (st : Q * Context2d),
  List.concat
    (map op_text
       (drawn (snd (fold_left
                      (fun st line =>
                         ((fst st + lineHeight)%Q,
                          line_ (snd st) line (fst st) fontSize))
                      lines st))))
  = List.concat (map op_text (drawn (snd st)))
    ++ List.concat (map (filter (fun c => negb (Ascii.eqb c space))) lines).
Proof.
  induction lines as [|l lines IH]; intros st; simpl.
  - now rewrite app_nil_r.
  - rewrite IH. cbn [fst snd].
    destruct (drawLine_texts (snd st) l (fst st) fontSize) as (ops & D & C & _).
    rewrite D, map_app, concat_app, C, <- app_assoc. reflexivity.
Qed.

(** X18: the render phase draws the whole layout: the texts of its drawing
    calls, taken in order, concatenate to the lines of the layout without
    their spaces, and there is at least one call per line. *)
Theorem render_spells_layout (d : Dichotomy) :
  List.concat
    (map op_text
       (drawn (render canvasWidth baseFontColor specialWordFontColor
                 specialWordList measureText pow15 toLowerCase levenshtein_get d)))
  = List.concat (map (filter (fun c => negb (Ascii.eqb c space))) (d_lines d))
  /\ (List.length (d_lines d)
      <= List.length
           (drawn (render canvasWidth baseFontColor specialWordFontColor
                     specialWordList measureText pow15 toLowerCase
                     levenshtein_get d)))%nat.
Proof.
  split.
  - unfold render. rewrite drawLines_texts. reflexivity.
  - apply (render_effect canvasWidth baseFontColor specialWordFontColor
             specialWordList measureText pow15 toLowerCase levenshtein_get d).
Qed.

(** X19: for a word made of a core that is not split (it is not empty and
    does not end in ['!'] unless it is ["!"] itself) followed by [k]
    exclamation marks, [drawWord] makes [k + 1] drawing calls and returns
    the width of the core followed by a space plus [k] times the width of
    ["! "]. *)
Theorem drawWord_trailing_bangs context core (k : nat) x y fontSize :
  core <> [] -> splitsBang core = false ->
  (fst (drawWord baseFontColor specialWordFontColor specialWordList
          measureText toLowerCase levenshtein_get
          context (core ++ repeat bang k) x y fontSize)
   == width (measureText (font context) (core ++ [space]))
      + inject_Z (Z.of_nat k) * width (measureText (font context) [bang; space]))%Q
  /\ List.length
       (drawn (snd (drawWord baseFontColor specialWordFontColor specialWordList
                      measureText toLowerCase levenshtein_get
                      context (core ++ repeat bang k) x y fontSize)))
     = (List.length (drawn context) + S k)%nat.
Proof.
  intros Hne Hcore. induction k as [|k [IHw IHn]].
  - simpl repeat. rewrite app_nil_r.
    rewrite drawWord_plain by exact Hcore. unfold drawPlain. cbn [fst snd drawn].
    split; [simpl; ring | rewrite length_app; simpl; lia].
  - assert (Hword : core ++ repeat bang (S k) = (core ++ repeat bang k) ++ [bang])
      by (rewrite <- app_assoc; f_equal; apply repeat_cons).
    assert (Hsplit : splitsBang (core ++ repeat bang (S k)) = true).
    { rewrite Hword. unfold splitsBang, endsWith. rewrite rev_app_distr. simpl.
      rewrite ?Ascii.eqb_refl, ?andb_true_r. apply Z.gtb_lt.
      rewrite !len_app. destruct core; [congruence |].
      pose proof (len_nonneg (repeat bang k)). unfold len in *.
      cbn [List.length]. lia. }
    assert (Hprefix : substring (core ++ repeat bang (S k)) 0
                        (len (core ++ repeat bang (S k)) - 1)
                      = core ++ repeat bang k).
    { apply (app_inv_tail [bang]). rewrite splitsBang_snoc by exact Hsplit.
      exact Hword. }
    rewrite drawWord_bang by exact Hsplit. cbv zeta. rewrite Hprefix.
    rewrite (drawWord_plain _ _ _ _ _ _ _ [bang]) by reflexivity.
    unfold drawPlain. cbn [fst snd drawn].
    destruct (drawWord_effect baseFontColor specialWordFontColor specialWordList
                measureText toLowerCase levenshtein_get context
                (core ++ repeat bang k) x y fontSize) as [Hfont _].
    rewrite Hfont. split.
    + rewrite IHw, Nat2Z.inj_succ. unfold Z.succ. rewrite inject_Z_plus.
      change ([bang] ++ [space]) with [bang; space]. simpl (inject_Z 1). ring.
    + rewrite length_app, IHn. simpl. lia.
Qed.

End RendererExtras.

Lemma drawWord_trailing_bangs_witness :
  (fst (drawWord "#fff" "#FB7417" [s "amazing"] monoMeasure asciiLowerCase
          levenshtein (freshContext 10) (s "Wow!!!") 0 0 10)
   == width (monoMeasure 10 (s "Wow ")) + 3 * width (monoMeasure 10 (s "! ")))%Q
  /\ List.length
       (drawn (snd (drawWord "#fff" "#FB7417" [s "amazing"] monoMeasure
                      asciiLowerCase levenshtein (freshContext 10)
                      (s "Wow!!!") 0 0 10)))
     = 4%nat.
Proof.
  apply (drawWord_trailing_bangs "#fff" "#FB7417" [s "amazing"] monoMeasure
           asciiLowerCase levenshtein (freshContext 10) (s "Wow") 3 0 0 10);
    [discriminate | reflexivity].
Defined.

(** ** Color classification *)

(** X20: the color of a word depends only on which special words are
    configured, not on their order or repetition; with no special word
    configured every word gets the base color. *)
Theorem getColor_depends_on_members
    (baseFontColor specialWordFontColor : string) (list1 list2 : list str)
    (toLowerCase : str -> str) (levenshtein_get : str -> str -> Z)
    (word : option str) :
  ((forall specialWord, In specialWord list1 <-> In specialWord list2) ->
   getColor baseFontColor specialWordFontColor list1 toLowerCase
     levenshtein_get word
   = getColor baseFontColor specialWordFontColor list2 toLowerCase
       levenshtein_get word)
  /\ getColor baseFontColor specialWordFontColor [] toLowerCase
       levenshtein_get word = baseFontColor.
Proof.
  split; [| destruct word as [[|c w]|]; reflexivity].
  intros Hmem. destruct word as [[|c w]|]; try reflexivity.
  unfold getColor.
  assert (E : existsb (isSpecial toLowerCase levenshtein_get (c :: w)) list1
              = existsb (isSpecial toLowerCase levenshtein_get (c :: w)) list2).
  { destruct (existsb _ list1) eqn:E1; destruct (existsb _ list2) eqn:E2;
      try reflexivity.
    - apply existsb_exists in E1. destruct E1 as (sw & Hin & Hs).
      assert (existsb (isSpecial toLowerCase levenshtein_get (c :: w)) list2 = true)
        by (apply existsb_exists; exists sw; split; [now apply Hmem | exact Hs]).
      congruence.
    - apply existsb_exists in E2. destruct E2 as (sw & Hin & Hs).
      assert (existsb (isSpecial toLowerCase levenshtein_get (c :: w)) list1 = true)
        by (apply existsb_exists; exists sw; split; [now apply Hmem | exact Hs]).
      congruence. }
  now rewrite E.
Qed.

Lemma getColor_depends_on_members_witness :
  getColor "#fff" "#FB7417" [s "ok"; s "amazing"] asciiLowerCase levenshtein
    (Some (s "amazin"))
  = getColor "#fff" "#FB7417" [s "amazing"; s "ok"; s "amazing"] asciiLowerCase
      levenshtein (Some (s "amazin")).
Proof.
  apply (getColor_depends_on_members "#fff" "#FB7417"
           [s "ok"; s "amazing"] [s "amazing"; s "ok"; s "amazing"]).
  intros sw. simpl. tauto.
Defined.

(** ** Layout of the [/review] route *)

(** X21: what the [/review] route lays out, when its loops end, are the
    wrapped lines themselves (joining them with line breaks and splitting
    again changes nothing), at a font size not above [maxFontSize] at which
    their join fits the canvas and above which, up to [maxFontSize], it
    overflows. *)
Theorem reviewLayout_fits
    (canvasWidth : Q) (maxFontSize : Z) (measureText : Z -> str -> TextMetrics)
    (maxLineLength : Z) (fuel : nat) (text : str) (lines : list str)
    (fontSize : Z) :
  reviewLayout canvasWidth maxFontSize measureText maxLineLength fuel text
  = Some (lines, fontSize) ->
  splitLines fuel text maxLineLength = Some lines
  /\ fontSize <= maxFontSize
  /\ overflows canvasWidth (measureText fontSize (join lines newline)) = false
  /\ forall size, fontSize < size <= maxFontSize ->
       overflows canvasWidth (measureText size (join lines newline)) = true.
Proof.
  unfold reviewLayout.
  destruct (splitLines fuel text maxLineLength) as [ls|] eqn:Els; [| discriminate].
  cbv zeta.
  destruct (reviewFontSize canvasWidth maxFontSize measureText fuel
              (join ls newline)) as [size|] eqn:Es; [| discriminate].
  intros [= <- <-].
  assert (Hround : split (join ls newline) newline = ls).
  { apply split_join.
    - eapply splitLines_nonempty; eauto.
    - eapply splitLines_no_newline; eauto. }
  rewrite Hround. split; [reflexivity |].
  apply (shrinkFont_result canvasWidth measureText (join ls newline) fuel
           maxFontSize size Es).
Qed.

Lemma reviewLayout_fits_witness :
  splitLines 101 (s "This place was amazing! Highly recommend") 20
  = Some [s "This place was"; s "amazing! Highly"; s "recommend"]
  /\ 85 <= 100
  /\ overflows 1275
       (monoMeasure 85
          (join [s "This place was"; s "amazing! Highly"; s "recommend"] newline))
     = false
  /\ forall size, 85 < size <= 100 ->
       overflows 1275
         (monoMeasure size
            (join [s "This place was"; s "amazing! Highly"; s "recommend"] newline))
       = true.
Proof.
  apply (reviewLayout_fits 1275 100 monoMeasure 20 101
           (s "This place was amazing! Highly recommend")).
  vm_compute. reflexivity.
Defined.

(** ** Centring of a line *)

Section Centring.

Variable canvasWidth : Q.
Variable baseFontColor specialWordFontColor : string.
Variable specialWordList : list str.
Variable measureText : Z -> str -> TextMetrics.
Variable toLowerCase : str -> str.
Variable levenshtein_get : str -> str -> Z.

Local Abbreviation draw :=
  (drawWord baseFontColor specialWordFontColor specialWordList
            measureText toLowerCase levenshtein_get).

(** The first drawing call made for a word is at the [x] of the word. *)
Lemma drawWord_first context word x y fontSize :
  exists o rest,
    drawn (snd (draw context word x y fontSize)) = drawn context ++ o :: rest
    /\ op_x o = x.
Proof.
  funelim (drawWord _ _ _ _ _ _ context word x y fontSize).
  - cbv zeta. cbn [fst snd].
    match goal with
    | IH1 : exists _ _, drawn (snd (drawWord _ _ _ _ _ _ context _ _ _ _)) = _ /\ _
      |- _ => destruct IH1 as (o & rest & D1 & X1)
    end.
    destruct (drawWord_effect baseFontColor specialWordFontColor specialWordList
                measureText toLowerCase levenshtein_get
                (snd (draw context (substring word 0 (len word - 1)) x y fontSize))
                [bang]
                (x + fst (draw context (substring word 0 (len word - 1)) x y fontSize))%Q
                y fontSize) as [_ (ops2 & D2 & _ & _)].
    exists o, (rest ++ ops2). rewrite D2, D1, <- app_assoc. split; [reflexivity | exact X1].
  - unfold drawPlain. cbn [fst snd drawn]. eexists. exists []. split; reflexivity.
Qed.

(** X22: a line is centred as a whole: its first drawing call is at
    [(canvasWidth - w) / 2], where [w] is the measured width of the whole
    line under the font of the context. *)
Theorem drawLine_starts_centred context line y fontSize :
  exists o rest,
    drawn (drawLine canvasWidth baseFontColor specialWordFontColor
             specialWordList measureText toLowerCase levenshtein_get
             context line y fontSize)
    = drawn context ++ o :: rest
    /\ op_x o = ((canvasWidth - width (measureText (font context) line)) / 2)%Q
    /\ op_y o = y.
Proof.
  unfold drawLine.
  destruct (split line space) as [|w ws] eqn:E; [now apply split_nonempty in E |].
  cbn [fold_left fst snd].
  set (x0 := ((canvasWidth - width (measureText (font context) line)) / 2)%Q).
  destruct (drawWord_first context w x0 y fontSize) as (o & rest & D & X).
  destruct (drawWord_texts baseFontColor specialWordFontColor specialWordList
              measureText toLowerCase levenshtein_get context w x0 y fontSize)
    as (ops & D' & _ & A).
  match goal with
  | |- context [fold_left ?f ws ?st] =>
      destruct (drawWords_texts baseFontColor specialWordFontColor specialWordList
                  measureText toLowerCase levenshtein_get y fontSize ws st)
        as (ops2 & D2 & _ & _)
  end.
  cbn [fst snd] in D2.
  exists o, (rest ++ ops2). rewrite D2, D, <- app_assoc. split; [reflexivity |].
  split; [exact X |].
  rewrite D in D'. apply app_inv_head in D'. subst ops.
  inversion A as [|? ? Hhd _]; subst. exact (proj1 Hhd).
Qed.

End Centring.
